(** * cunumeric matrix task variants: trilu (GPU), syrk (CPU), contract (OMP)

    A shallow embedding of
      - src/cunumeric/matrix/trilu.cu        (the triangular-extraction kernel
                                              and its GPU launch),
      - src/cunumeric/matrix/syrk.cc         (the CPU rank-k shim),
      - src/cunumeric/cuda_help.h            (launch constants, CHECK_* macros,
                                              check_* helpers; listed with
                                              syrk.cc),
      - src/cunumeric/matrix/contract_omp.cc (the OpenMP contraction shim),
    followed by the properties established about them.  Of cuda_help.h the
    macros MAX and MIN (with the conversions of their integer arguments)
    and the device helpers [shuffle], [reduce_output]
    (both overloads) and [reduce_bool] are embedded as well. *)

From stdpp Require Import gmap strings list list_numbers fin_maps pretty.
From Stdlib Require Import ZArith Lia Ascii.
From coqutil Require Byte Word.LittleEndianList.

Local Open Scope Z_scope.

(* ===================================================================== *)
(** * Machine integers                                                    *)
(* ===================================================================== *)

(** Unsigned [w]-bit arithmetic is arithmetic modulo [2^w]. *)
Definition wrap_unsigned (w x : Z) : Z := x mod 2 ^ w.

(** Two's complement [w]-bit value of [x]. *)
Definition wrap_signed (w x : Z) : Z := (x + 2 ^ (w - 1)) mod 2 ^ w - 2 ^ (w - 1).

(** [unsigned int], the type of the fields of CUDA's [blockIdx], [blockDim],
    [threadIdx] and of [dim3]. *)
Definition uint32 (x : Z) : Z := wrap_unsigned 32 x.

(** [size_t] on the 64-bit targets CUDA supports. *)
Definition size_t (x : Z) : Z := wrap_unsigned 64 x.

(** [coord_t], Legion's [long long] point coordinate. *)
Definition coord_t (x : Z) : Z := wrap_signed 64 x.

Definition in_coord_t (x : Z) : Prop := - 2 ^ 63 <= x < 2 ^ 63.

(* ===================================================================== *)
(** * cuda_help.h: launch constants                                       *)
(* ===================================================================== *)

Definition THREADS_PER_BLOCK : Z := 128.

(* ===================================================================== *)
(** * trilu.cu                                                            *)
(* ===================================================================== *)

(** [Point<DIM>]: [DIM] coordinates of type [coord_t]. *)
Definition Point : Type := list Z.

(** [p[d]] *)
Definition coord (p : Point) (d : nat) : Z := nth d p 0.

(** The interface of [Pitches<DIM - 1>] that the kernel uses: one method,
    [unflatten(index, lo)]. *)
Record Pitches : Type := { unflatten : Z → Point → Point }.

(** One CUDA thread of a one-dimensional launch: the [.x] fields of
    [blockIdx], [blockDim] and [threadIdx]. *)
Record Thread : Type := mkThread
  { blockIdx_x : Z; blockDim_x : Z; threadIdx_x : Z }.

(** [blockIdx.x * blockDim.x + threadIdx.x]: the three operands are
    [unsigned int], so is the product and so is the sum; the result is then
    widened to the [size_t] it initialises. *)
Definition global_idx (t : Thread) : Z :=
  size_t (uint32 (uint32 (blockIdx_x t * blockDim_x t) + threadIdx_x t)).

(** [p[DIM - 2] + k]: [coord_t] plus [int32_t], computed in [coord_t]. *)
Definition row_plus_k (DIM : nat) (p : Point) (k : Z) : Z :=
  coord_t (coord p (DIM - 2) + k).

(** The two tests of the kernel. *)
Definition lower_cond (DIM : nat) (k : Z) (p : Point) : bool :=
  bool_decide (row_plus_k DIM p k >= coord p (DIM - 1)).

Definition upper_cond (DIM : nat) (k : Z) (p : Point) : bool :=
  bool_decide (row_plus_k DIM p k <= coord p (DIM - 1)).

Section Trilu.
Context {VAL : Type}.
(** The value of the literal [0] converted to [VAL]. *)
Context (zero : VAL).

(** [trilu_kernel<VAL, DIM, LOWER>], the code one thread runs.  [out] is the
    store behind the write accessor, [inp] the read accessor; the result is
    the store after the thread has finished. *)
Definition trilu_kernel (DIM : nat) (LOWER : bool)
    (out : gmap Point VAL) (inp : Point → VAL)
    (pitches : Pitches) (lo : Point) (volume : Z) (k : Z)
    (t : Thread) : gmap Point VAL :=
  let idx := global_idx t in
  if bool_decide (idx >= volume) then out
  else if LOWER then
    let p := unflatten pitches idx lo in
    if lower_cond DIM k p then <[p := inp p]> out else <[p := zero]> out
  else
    let p := unflatten pitches idx lo in
    if upper_cond DIM k p then <[p := inp p]> out else <[p := zero]> out.
End Trilu.

(** What the host code of a variant can do on the device side: launch a
    kernel, or pass a status through one of the CHECK_* macros of
    cuda_help.h. *)
Inductive HostAction : Type :=
  | KernelLaunch (gridDim_x blockDim_x : Z)
  | StatusCheck (macro : string).

(** [(volume + THREADS_PER_BLOCK - 1) / THREADS_PER_BLOCK] in [size_t]. *)
Definition launch_blocks (volume : Z) : Z :=
  size_t (size_t (volume + THREADS_PER_BLOCK) - 1) / THREADS_PER_BLOCK.

(** [TriluImplBody<VariantKind::GPU, CODE, DIM, LOWER>::operator()]: the
    actions of the host.  The execution configuration [<<<blocks,
    THREADS_PER_BLOCK>>>] builds two [dim3] values, whose fields are
    [unsigned int]. *)
Definition TriluImplBody_GPU (volume : Z) : list HostAction :=
  let blocks := launch_blocks volume in
  [KernelLaunch (uint32 blocks) (uint32 THREADS_PER_BLOCK)].

(** The threads of a one-dimensional grid, block after block. *)
Definition grid_threads (gridDim_x blockDim_x : Z) : list Thread :=
  b ← seqZ 0 gridDim_x; (mkThread b blockDim_x) <$> seqZ 0 blockDim_x.

Definition launched_threads (a : HostAction) : list Thread :=
  match a with
  | KernelLaunch g b => grid_threads g b
  | StatusCheck _ => []
  end.

Section TriluLaunch.
Context {VAL : Type} (zero : VAL).

(** The device side of the launch.  The hardware runs the threads in an
    order of its choosing; [sched] is that order.  A thread of this kernel
    is one read of [inp] and one write of [out], so an order of the threads
    is an order of the writes. *)
Definition trilu_launch (DIM : nat) (LOWER : bool)
    (out : gmap Point VAL) (inp : Point → VAL)
    (pitches : Pitches) (lo : Point) (volume : Z) (k : Z)
    (sched : list Thread) : gmap Point VAL :=
  foldl (λ o t, trilu_kernel zero DIM LOWER o inp pitches lo volume k t)
        out sched.

(** The element the extraction stores at point [p]. *)
Definition trilu_element (DIM : nat) (LOWER : bool)
    (inp : Point → VAL) (k : Z) (p : Point) : VAL :=
  if (if LOWER then lower_cond DIM k p else upper_cond DIM k p)
  then inp p else zero.

(** The reference the launch is compared with: a sequential loop over
    [idx] from [0] to [volume - 1]. *)
Definition trilu_sequential (DIM : nat) (LOWER : bool)
    (out : gmap Point VAL) (inp : Point → VAL)
    (pitches : Pitches) (lo : Point) (volume : Z) (k : Z)
    : gmap Point VAL :=
  foldl (λ o idx, let p := unflatten pitches idx lo in
                  <[p := trilu_element DIM LOWER inp k p]> o)
        out (seqZ 0 volume).
End TriluLaunch.

(** Modelled from the spec: [Pitches<DIM - 1>] and its [unflatten] are
    declared in cunumeric/pitches.h, which is not among the sources.  The
    kernel uses [unflatten(idx, lo)] as the point of linear index [idx] in
    the rectangle that starts at [lo]; this is the row-major
    delinearisation: for each leading dimension [d] the quotient of the
    index by [pitches[d]] is added to [lo[d]] and the index is replaced by
    the remainder, and what is left is added to the last coordinate. *)
Fixpoint unflatten_c_order (pitches : list Z) (index : Z) (lo : Point) : Point :=
  match pitches, lo with
  | pitch :: pitches', l :: lo' =>
      coord_t (l + index / pitch) :: unflatten_c_order pitches' (index mod pitch) lo'
  | [], l :: lo' => coord_t (l + index) :: lo'
  | _, [] => []
  end.

Definition c_order_pitches (pitches : list Z) : Pitches :=
  {| unflatten := unflatten_c_order pitches |}.

(* ===================================================================== *)
(** * cuda_help.h: the CHECK_* macros and the check_* helpers             *)
(* ===================================================================== *)

(** What the vendor headers provide to this file: the success constant of
    each status type and the functions that name an error. *)
Record VendorSDK : Type :=
  { cudaSuccess : Z;
    CUBLAS_STATUS_SUCCESS : Z;
    CUFFT_SUCCESS : Z;
    CUSOLVER_STATUS_SUCCESS : Z;
    CUTENSOR_STATUS_SUCCESS : Z;
    cudaGetErrorString : Z → string;
    cudaGetErrorName : Z → string;
    cutensorGetErrorString : Z → string }.

Inductive FormatArg : Type :=
  | ArgStr (s : string)
  | ArgInt (n : Z).

(** One call of [fprintf(stderr, format, args...)]. *)
Inductive Diagnostic : Type :=
  | fprintf_stderr (format : string) (args : list FormatArg).

(** A computation of the host process: what it printed, and either its
    value or the status the process exited with. *)
Inductive Completion (A : Type) : Type :=
  | Returned (a : A)
  | Exited (status : Z).
Arguments Returned {A} a.
Arguments Exited {A} status.

Definition Host (A : Type) : Type := list Diagnostic * Completion A.

Definition host_ret {A} (a : A) : Host A := ([], Returned a).

Definition host_bind {A B} (c : Host A) (k : A → Host B) : Host B :=
  match c with
  | (printed, Returned a) => let '(printed', r) := k a in (printed ++ printed', r)
  | (printed, Exited status) => (printed, Exited status)
  end.

Notation "c ;;; k" := (host_bind c (λ _, k))
  (at level 100, k at level 200, right associativity).

(** [exit(status)] *)
Definition exit {A} (status : Z) : Host A := ([], Exited status).

Definition fprintf (format : string) (args : list FormatArg) : Host unit :=
  ([fprintf_stderr format args], Returned tt).

(** The character that the escape [\n] of a C string literal denotes. *)
Definition newline : string := String (ascii_of_nat 10) EmptyString.

Section CudaHelp.
Context (sdk : VendorSDK).

Definition check_cuda (error : Z) (file : string) (line : Z) : Host unit :=
  if bool_decide (error ≠ cudaSuccess sdk) then
    fprintf ("Internal CUDA failure with error %s (%s) in file %s at line %d" +:+ newline)
            [ArgStr (cudaGetErrorString sdk error);
             ArgStr (cudaGetErrorName sdk error); ArgStr file; ArgInt line] ;;;
    exit error
  else host_ret tt.

Definition check_cublas (status : Z) (file : string) (line : Z) : Host unit :=
  if bool_decide (status ≠ CUBLAS_STATUS_SUCCESS sdk) then
    fprintf ("Internal cuBLAS failure with error code %d in file %s at line %d" +:+ newline)
            [ArgInt status; ArgStr file; ArgInt line] ;;;
    exit status
  else host_ret tt.

Definition check_cufft (result : Z) (file : string) (line : Z) : Host unit :=
  if bool_decide (result ≠ CUFFT_SUCCESS sdk) then
    fprintf ("Internal cuFFT failure with error code %d in file %s at line %d" +:+ newline)
            [ArgInt result; ArgStr file; ArgInt line] ;;;
    exit result
  else host_ret tt.

Definition check_cusolver (status : Z) (file : string) (line : Z) : Host unit :=
  if bool_decide (status ≠ CUSOLVER_STATUS_SUCCESS sdk) then
    fprintf ("Internal cuSOLVER failure with error code %d in file %s at line %d" +:+ newline)
            [ArgInt status; ArgStr file; ArgInt line] ;;;
    exit status
  else host_ret tt.

Definition check_cutensor (result : Z) (file : string) (line : Z) : Host unit :=
  if bool_decide (result ≠ CUTENSOR_STATUS_SUCCESS sdk) then
    fprintf ("Internal Legate CUTENSOR failure with error %s (%d) in file %s at line %d" +:+ newline)
            [ArgStr (cutensorGetErrorString sdk result);
             ArgInt result; ArgStr file; ArgInt line] ;;;
    exit result
  else host_ret tt.

(** The macros: evaluate the expression once, hand the status to the
    helper together with [__FILE__] and [__LINE__]. *)
Definition CHECK_CUDA (expr : Z) (FILE : string) (LINE : Z) : Host unit :=
  let result := expr in check_cuda result FILE LINE.
Definition CHECK_CUBLAS (expr : Z) (FILE : string) (LINE : Z) : Host unit :=
  let result := expr in check_cublas result FILE LINE.
Definition CHECK_CUFFT (expr : Z) (FILE : string) (LINE : Z) : Host unit :=
  let result := expr in check_cufft result FILE LINE.
Definition CHECK_CUSOLVER (expr : Z) (FILE : string) (LINE : Z) : Host unit :=
  let result := expr in check_cusolver result FILE LINE.
Definition CHECK_CUTENSOR (expr : Z) (FILE : string) (LINE : Z) : Host unit :=
  let result := expr in check_cutensor result FILE LINE.
End CudaHelp.

(** The five status libraries, to speak of the helpers and macros together. *)
Inductive StatusLibrary : Type := CUDA | CUBLAS | CUFFT | CUSOLVER | CUTENSOR.

Definition success_code (sdk : VendorSDK) (l : StatusLibrary) : Z :=
  match l with
  | CUDA => cudaSuccess sdk
  | CUBLAS => CUBLAS_STATUS_SUCCESS sdk
  | CUFFT => CUFFT_SUCCESS sdk
  | CUSOLVER => CUSOLVER_STATUS_SUCCESS sdk
  | CUTENSOR => CUTENSOR_STATUS_SUCCESS sdk
  end.

Definition check_helper (sdk : VendorSDK) (l : StatusLibrary)
    : Z → string → Z → Host unit :=
  match l with
  | CUDA => check_cuda sdk
  | CUBLAS => check_cublas sdk
  | CUFFT => check_cufft sdk
  | CUSOLVER => check_cusolver sdk
  | CUTENSOR => check_cutensor sdk
  end.

Definition CHECK_macro (sdk : VendorSDK) (l : StatusLibrary)
    : Z → string → Z → Host unit :=
  match l with
  | CUDA => CHECK_CUDA sdk
  | CUBLAS => CHECK_CUBLAS sdk
  | CUFFT => CHECK_CUFFT sdk
  | CUSOLVER => CHECK_CUSOLVER sdk
  | CUTENSOR => CHECK_CUTENSOR sdk
  end.

(** ** What cuda_help.h declares

    The header's own declarations, in the order of the file: object-like and
    function-like macros it defines, functions it defines, and functions it
    only declares (their definitions are in cudalibs.cu). *)
Inductive DeclKind : Type := MacroDefinition | FunctionDefinition | FunctionDeclaration.

Record Declaration : Type := mkDecl { decl_name : string; decl_kind : DeclKind }.

Definition cuda_help_h : list Declaration :=
  [ mkDecl "THREADS_PER_BLOCK" MacroDefinition;
    mkDecl "MIN_CTAS_PER_SM" MacroDefinition;
    mkDecl "MAX_REDUCTION_CTAS" MacroDefinition;
    mkDecl "COOPERATIVE_THREADS" MacroDefinition;
    mkDecl "COOPERATIVE_CTAS_PER_SM" MacroDefinition;
    mkDecl "CHECK_CUDA" MacroDefinition;
    mkDecl "CHECK_CUBLAS" MacroDefinition;
    mkDecl "CHECK_CUFFT" MacroDefinition;
    mkDecl "CHECK_CUSOLVER" MacroDefinition;
    mkDecl "CHECK_CUTENSOR" MacroDefinition;
    mkDecl "MAX" MacroDefinition;
    mkDecl "MIN" MacroDefinition;
    mkDecl "get_cached_stream" FunctionDeclaration;
    mkDecl "get_cublas" FunctionDeclaration;
    mkDecl "get_cusolver" FunctionDeclaration;
    mkDecl "get_cutensor" FunctionDeclaration;
    mkDecl "check_cuda" FunctionDefinition;
    mkDecl "check_cublas" FunctionDefinition;
    mkDecl "check_cufft" FunctionDefinition;
    mkDecl "check_cusolver" FunctionDefinition;
    mkDecl "check_cutensor" FunctionDefinition;
    mkDecl "shuffle" FunctionDefinition;
    mkDecl "reduce_output" FunctionDefinition;
    mkDecl "reduce_output" FunctionDefinition;
    mkDecl "reduce_bool" FunctionDefinition;
    mkDecl "load_cached" FunctionDefinition;
    mkDecl "load_l2" FunctionDefinition;
    mkDecl "load_streaming" FunctionDefinition;
    mkDecl "store_streaming" FunctionDefinition ].

(** The names of the macro and of the helper of a status library. *)
Definition macro_name (l : StatusLibrary) : string :=
  match l with
  | CUDA => "CHECK_CUDA" | CUBLAS => "CHECK_CUBLAS" | CUFFT => "CHECK_CUFFT"
  | CUSOLVER => "CHECK_CUSOLVER" | CUTENSOR => "CHECK_CUTENSOR"
  end.

Definition helper_name (l : StatusLibrary) : string :=
  match l with
  | CUDA => "check_cuda" | CUBLAS => "check_cublas" | CUFFT => "check_cufft"
  | CUSOLVER => "check_cusolver" | CUTENSOR => "check_cutensor"
  end.

Definition status_libraries : list StatusLibrary :=
  [CUDA; CUBLAS; CUFFT; CUSOLVER; CUTENSOR].

(** An error-check macro or an error-checking helper function. *)
Definition is_error_check (d : Declaration) : bool :=
  bool_decide (decl_name d ∈ (macro_name <$> status_libraries)
                             ++ (helper_name <$> status_libraries)).

(** A declaration the repository implements itself: a macro or a function
    with a body here. *)
Definition defined_here (d : Declaration) : bool :=
  match decl_kind d with
  | MacroDefinition | FunctionDefinition => true
  | FunctionDeclaration => false
  end.

(* ===================================================================== *)
(** * Vendor routines and process-level state                             *)
(* ===================================================================== *)

(** A raw pointer: an address.  [reinterpret_cast] and [const_cast] keep the
    address. *)
Definition ptr : Type := Z.
Definition nullptr : ptr := 0.
Definition reinterpret_cast (p : ptr) : ptr := p.
Definition const_cast (p : ptr) : ptr := p.

(** The type codes for which syrk.cc and contract_omp.cc have a
    specialisation. *)
Inductive LegateTypeCode : Type := FLOAT_LT | DOUBLE_LT | COMPLEX64_LT | COMPLEX128_LT.

(** cblas.h *)
Inductive CBLAS_ORDER : Type := CblasRowMajor | CblasColMajor.
Inductive CBLAS_UPLO : Type := CblasUpper | CblasLower.
Inductive CBLAS_TRANSPOSE : Type := CblasNoTrans | CblasTrans | CblasConjTrans.

(** The rank-k update routines of CBLAS: symmetric ([?syrk], one per element
    type) and Hermitian ([?herk], complex types only). *)
Inductive CblasRoutine : Type :=
  | ssyrk | dsyrk | csyrk | zsyrk | cherk | zherk.

(** tblis.h: the four initialisers of a [tblis_tensor]. *)
Inductive TblisInit : Type :=
  | tblis_init_tensor_s | tblis_init_tensor_d | tblis_init_tensor_c | tblis_init_tensor_z.

(** A call into a vendor library, with its arguments in the order of its
    prototype.  The [tblis_tensor] structures are locals of the caller and
    are named by their variable.  The scalars [-1.0] and [1.0] are integers
    and are kept as such. *)
Inductive VendorCall : Type :=
  | cblas_rank_k (routine : CblasRoutine)
      (Order : CBLAS_ORDER) (Uplo : CBLAS_UPLO) (Trans : CBLAS_TRANSPOSE)
      (N K : Z) (alpha : Z) (A : ptr) (lda : Z) (beta : Z) (C : ptr) (ldc : Z)
  | tblis_init_tensor (init : TblisInit)
      (t : string) (ndim : Z) (len : ptr) (data : ptr) (stride : ptr)
  | tblis_tensor_mult (comm cfg : ptr)
      (A : string) (idx_A : ptr) (B : string) (idx_B : ptr)
      (C : string) (idx_C : ptr).

Definition cblas_ssyrk := cblas_rank_k ssyrk.
Definition cblas_dsyrk := cblas_rank_k dsyrk.
Definition cblas_cherk := cblas_rank_k cherk.
Definition cblas_zherk := cblas_rank_k zherk.

(** The state of the process that the variants touch: the environment, the
    thread count of OpenBLAS, and the [nthreads-var] of the OpenMP runtime
    (what [omp_get_max_threads] returns). *)
Record ProcState : Type := mkProc
  { environ : gmap string string;
    openblas_threads : Z;
    omp_max_threads : Z }.

(** POSIX [setenv(name, value, overwrite)]. *)
Definition setenv (name value : string) (overwrite : bool)
    (env : gmap string string) : gmap string string :=
  match env !! name with
  | Some _ => if overwrite then <[name := value]> env else env
  | None => <[name := value]> env
  end.

Definition openblas_set_num_threads (n : Z) (σ : ProcState) : ProcState :=
  mkProc (environ σ) n (omp_max_threads σ).

Definition omp_get_max_threads (σ : ProcState) : Z := omp_max_threads σ.

(** What running a task variant amounts to: the state it leaves and the
    vendor calls it made. *)
Definition Run : Type := ProcState * list VendorCall.

(* ===================================================================== *)
(** * syrk.cc                                                             *)
(* ===================================================================== *)

Section SyrkTemplates.
Context {R : Type}.
Context (syrk : CBLAS_ORDER → CBLAS_UPLO → CBLAS_TRANSPOSE →
                Z → Z → Z → ptr → Z → Z → ptr → Z → R).

Definition syrk_template (lhs rhs : ptr) (m n : Z) : R :=
  let uplo := CblasLower in
  let trans := CblasNoTrans in
  syrk CblasColMajor uplo trans m n (-1) rhs m 1 lhs m.

Definition complex_syrk_template (lhs rhs : ptr) (m n : Z) : R :=
  let uplo := CblasLower in
  let trans := CblasNoTrans in
  syrk CblasColMajor uplo trans m n (-1) rhs m 1 lhs m.
End SyrkTemplates.

(** [SyrkImplBody<VariantKind::CPU, CODE>::operator()] *)
Definition SyrkImplBody_CPU (CODE : LegateTypeCode)
    (lhs_ rhs_ : ptr) (m n : Z) : VendorCall :=
  match CODE with
  | FLOAT_LT => syrk_template cblas_ssyrk lhs_ rhs_ m n
  | DOUBLE_LT => syrk_template cblas_dsyrk lhs_ rhs_ m n
  | COMPLEX64_LT =>
      let lhs := reinterpret_cast lhs_ in
      let rhs := reinterpret_cast rhs_ in
      complex_syrk_template cblas_cherk lhs rhs m n
  | COMPLEX128_LT =>
      let lhs := reinterpret_cast lhs_ in
      let rhs := reinterpret_cast rhs_ in
      complex_syrk_template cblas_zherk lhs rhs m n
  end.

(** The routine that CBLAS calls the symmetric rank-k update of an element
    type ([?syrk]): what the specification's wording names, to be compared
    with the routine [SyrkImplBody_CPU] calls. *)
Definition symmetric_rank_k_routine (CODE : LegateTypeCode) : CblasRoutine :=
  match CODE with
  | FLOAT_LT => ssyrk
  | DOUBLE_LT => dsyrk
  | COMPLEX64_LT => csyrk
  | COMPLEX128_LT => zsyrk
  end.

Section Variants.
(** [legate::TaskContext], and the two task templates of
    syrk_template.inl and contract_template.inl, which unpack the context
    and call the [ImplBody] of the element type; neither file is among the
    sources, so the variants take them as parameters. *)
Context {TaskContext : Type}.
Context (syrk_task_template contract_template : TaskContext → ProcState → Run).

(** [SyrkTask::cpu_variant]; the flag is the preprocessor symbol. *)
Definition cpu_variant (LEGATE_USE_OPENMP : bool)
    (context : TaskContext) (σ : ProcState) : Run :=
  let σ := if LEGATE_USE_OPENMP then openblas_set_num_threads 1 σ else σ in
  syrk_task_template context σ.

(** [ContractTask::omp_variant] *)
Definition omp_variant (context : TaskContext) (σ : ProcState) : Run :=
  let ss := pretty (omp_get_max_threads σ) in
  let str := ss in
  let σ := mkProc (setenv "TBLIS_NUM_THREADS" str false (environ σ))
                  (openblas_threads σ) (omp_max_threads σ) in
  contract_template context σ.
End Variants.

(** A template that returns at once: running a variant over it shows the
    state in which the variant enters its template. *)
Definition returns_at_once {TaskContext : Type} : TaskContext → ProcState → Run :=
  λ _ σ, (σ, []).

(* ===================================================================== *)
(** * contract_omp.cc                                                     *)
(* ===================================================================== *)

Definition tblis_init_of (CODE : LegateTypeCode) : TblisInit :=
  match CODE with
  | FLOAT_LT => tblis_init_tensor_s
  | DOUBLE_LT => tblis_init_tensor_d
  | COMPLEX64_LT => tblis_init_tensor_c
  | COMPLEX128_LT => tblis_init_tensor_z
  end.

(** [ContractImplBody<VariantKind::OMP, CODE>::operator()]: the vendor calls
    it makes, in order. *)
Definition ContractImplBody_OMP (CODE : LegateTypeCode)
    (lhs_data : ptr) (lhs_ndim : Z) (lhs_shape lhs_strides lhs_modes : ptr)
    (rhs1_data : ptr) (rhs1_ndim : Z) (rhs1_shape rhs1_strides rhs1_modes : ptr)
    (rhs2_data : ptr) (rhs2_ndim : Z) (rhs2_shape rhs2_strides rhs2_modes : ptr)
    : list VendorCall :=
  match CODE with
  | FLOAT_LT =>
      [ tblis_init_tensor tblis_init_tensor_s "lhs" lhs_ndim lhs_shape lhs_data lhs_strides;
        tblis_init_tensor tblis_init_tensor_s "rhs1" rhs1_ndim rhs1_shape
          (const_cast rhs1_data) rhs1_strides;
        tblis_init_tensor tblis_init_tensor_s "rhs2" rhs2_ndim rhs2_shape
          (const_cast rhs2_data) rhs2_strides;
        tblis_tensor_mult nullptr nullptr "rhs1" rhs1_modes "rhs2" rhs2_modes "lhs" lhs_modes ]
  | DOUBLE_LT =>
      [ tblis_init_tensor tblis_init_tensor_d "lhs" lhs_ndim lhs_shape lhs_data lhs_strides;
        tblis_init_tensor tblis_init_tensor_d "rhs1" rhs1_ndim rhs1_shape
          (const_cast rhs1_data) rhs1_strides;
        tblis_init_tensor tblis_init_tensor_d "rhs2" rhs2_ndim rhs2_shape
          (const_cast rhs2_data) rhs2_strides;
        tblis_tensor_mult nullptr nullptr "rhs1" rhs1_modes "rhs2" rhs2_modes "lhs" lhs_modes ]
  | COMPLEX64_LT =>
      [ tblis_init_tensor tblis_init_tensor_c "lhs" lhs_ndim lhs_shape
          (reinterpret_cast lhs_data) lhs_strides;
        tblis_init_tensor tblis_init_tensor_c "rhs1" rhs1_ndim rhs1_shape
          (reinterpret_cast (const_cast rhs1_data)) rhs1_strides;
        tblis_init_tensor tblis_init_tensor_c "rhs2" rhs2_ndim rhs2_shape
          (reinterpret_cast (const_cast rhs2_data)) rhs2_strides;
        tblis_tensor_mult nullptr nullptr "rhs1" rhs1_modes "rhs2" rhs2_modes "lhs" lhs_modes ]
  | COMPLEX128_LT =>
      [ tblis_init_tensor tblis_init_tensor_z "lhs" lhs_ndim lhs_shape
          (reinterpret_cast lhs_data) lhs_strides;
        tblis_init_tensor tblis_init_tensor_z "rhs1" rhs1_ndim rhs1_shape
          (reinterpret_cast (const_cast rhs1_data)) rhs1_strides;
        tblis_init_tensor tblis_init_tensor_z "rhs2" rhs2_ndim rhs2_shape
          (reinterpret_cast (const_cast rhs2_data)) rhs2_strides;
        tblis_tensor_mult nullptr nullptr "rhs1" rhs1_modes "rhs2" rhs2_modes "lhs" lhs_modes ]
  end.

(** The environment variable of the OpenMP variant. *)
Definition TBLIS_NUM_THREADS : string := "TBLIS_NUM_THREADS".

(* ===================================================================== *)
(** * cuda_help.h: MAX, MIN                                               *)
(* ===================================================================== *)

(** The macros take arguments of any arithmetic type; the comparison and
    the conditional expression both bring their two operands to a common
    type first (the usual arithmetic conversions of C and C++).  The integer
    types are given by signedness and width: [int] is signed of 32 bits,
    [unsigned] unsigned of 32, [int64_t] and [coord_t] signed of 64,
    [size_t] unsigned of 64. *)
Inductive Width : Type := W8 | W16 | W32 | W64.

Definition bits (w : Width) : Z :=
  match w with W8 => 8 | W16 => 16 | W32 => 32 | W64 => 64 end.

Record IntType : Type := mkIntType { is_signed : bool; width : Width }.

Definition ty_int : IntType := mkIntType true W32.
Definition ty_size_t : IntType := mkIntType false W64.

(** The values of a type, and the conversion of an integer to a type:
    modulo [2^width], into the type's range. *)
Definition in_range (t : IntType) (x : Z) : Prop :=
  if is_signed t then - 2 ^ (bits (width t) - 1) <= x < 2 ^ (bits (width t) - 1)
  else 0 <= x < 2 ^ bits (width t).


(** Integer promotion: a type narrower than [int] becomes [int]. *)
Definition promote (t : IntType) : IntType :=
  match width t with
  | W8 | W16 => ty_int
  | W32 | W64 => t
  end.




(* ===================================================================== *)
(** * cuda_help.h: reduce_output, reduce_bool                             *)
(* ===================================================================== *)

(** The reductions are written for one-dimensional blocks made of full
    warps (the mask [0xffffffff] names all 32 lanes), at most
    [THREADS_PER_BLOCK / 32] of them (the size of [trampoline]).  A block is
    given by [blockDim.x] and by what each of its threads passes as
    [value]: a function of [threadIdx.x]. *)

(** [threadIdx.x & 0x1f] *)
Definition laneid_of (threadIdx_x : Z) : Z := Z.land threadIdx_x 31.

(** [threadIdx.x >> 5] *)
Definition warpid_of (threadIdx_x : Z) : Z := Z.shiftr threadIdx_x 5.

(** CUDA's [__shfl_xor_sync(0xffffffff, var, laneMask, 32)]: the calling
    thread receives the [var] of the thread of its warp whose lane is its own
    lane xor [laneMask]; for [0 <= laneMask < 32] that is the thread
    [threadIdx.x xor laneMask] of the block.  [var] gives what each thread
    passes. *)
Definition shfl_xor_sync {T : Type} (var : Z → T) (threadIdx_x laneMask : Z) : T :=
  var (Z.lxor threadIdx_x laneMask).

Section Reductions.
Context {T : Type}.
(** [REDUCTION::fold<true>(lhs, rhs)]: the new value of [lhs]. *)
Context (REDUCTION_fold : T → T → T).

(** [for (int i = 16; i >= 1; i /= 2) { shuffle_value = shfl(value, i);
    fold(value, shuffle_value); }], run by the threads of the block in
    lockstep: the values before the loop, the values after it. *)
Fixpoint warp_loop (fuel : nat) (i : Z) (value : Z → T) : Z → T :=
  match fuel with
  | O => value
  | S fuel' =>
      if bool_decide (i >= 1) then
        warp_loop fuel' (Z.quot i 2)
          (λ t, let shuffle_value := shfl_xor_sync value t i in
                REDUCTION_fold (value t) shuffle_value)
      else value
  end.

(** [if ((laneid == 0) && (warpid > 0)) trampoline[warpid] = value;] run by
    every thread of the block, then [__syncthreads()]: the slots of the
    shared array that have been written.  The other slots hold what shared
    memory held before. *)
Definition write_trampoline (blockDim_x : Z) (value : Z → T) : gmap Z T :=
  foldl (λ trampoline t,
           if bool_decide (laneid_of t = 0 ∧ warpid_of t > 0)
           then <[warpid_of t := value t]> trampoline else trampoline)
        ∅ (seqZ 0 blockDim_x).

(** [for (int i = 1; i < (THREADS_PER_BLOCK / 32); i++) fold(value,
    trampoline[i]);] of thread 0: [None] when a slot is read that no thread
    has written. *)
Definition fold_trampoline (trampoline : gmap Z T) (value : T) : option T :=
  foldl (λ acc i, v ← acc; s ← trampoline !! i; Some (REDUCTION_fold v s))
        (Some value) (seqZ 1 (THREADS_PER_BLOCK / 32 - 1)).

(** [reduce_output(result, value)] (the overload for any [T]): the value
    that thread 0 reduces into [result] with [result <<= value]; no other
    thread touches [result]. *)
Definition reduce_output (blockDim_x : Z) (value : Z → T) : option T :=
  let value := warp_loop (S (Z.to_nat 16)) 16 value in
  let trampoline := write_trampoline blockDim_x value in
  fold_trampoline trampoline (value 0).
End Reductions.

(** The body of the warp loop of [reduce_bool]:
    [if (shuffle_value == 0) value = 0;] *)
Definition reduce_bool_step (value shuffle_value : Z) : Z :=
  if bool_decide (shuffle_value = 0) then 0 else value.

(** [for (int i = 1; i < (THREADS_PER_BLOCK / 32); i++)
       if (trampoline[i] == 0) { value = 0; break; }] *)
Fixpoint scan_trampoline (trampoline : gmap Z Z) (slots : list Z) (value : Z) : option Z :=
  match slots with
  | [] => Some value
  | i :: slots' =>
      match trampoline !! i with
      | None => None
      | Some s => if bool_decide (s = 0) then Some 0
                  else scan_trampoline trampoline slots' value
      end
  end.

(** [reduce_bool(result, value)]: the content of [result] afterwards, given
    its content before; thread 0 stores [false] into it when its [value]
    has become 0, and nothing else is stored. *)
Definition reduce_bool (blockDim_x : Z) (result : bool) (value : Z → Z) : option bool :=
  let value := warp_loop reduce_bool_step (S (Z.to_nat 16)) 16 value in
  let trampoline := write_trampoline blockDim_x value in
  value0 ← scan_trampoline trampoline (seqZ 1 (THREADS_PER_BLOCK / 32 - 1)) (value 0);
  Some (if bool_decide (value0 = 0) then false else result).

(* ===================================================================== *)
(** * cuda_help.h: shuffle, and reduce_output for complex values          *)
(* ===================================================================== *)

(** [sizeof(int)] *)
Definition sizeof_int : nat := 4.

(** An [int] and its four bytes (little-endian, two's complement). *)
Definition int_of_bytes (bs : list Byte.byte) : Z :=
  wrap_signed 32 (LittleEndianList.le_combine bs).

Definition bytes_of_int (v : Z) : list Byte.byte :=
  LittleEndianList.le_split sizeof_int v.

(** The elements of an [int] array, given its bytes, and back. *)
Fixpoint ints_of_bytes (bs : list Byte.byte) : list Z :=
  match bs with
  | b0 :: b1 :: b2 :: b3 :: bs' => int_of_bytes [b0; b1; b2; b3] :: ints_of_bytes bs'
  | _ => []
  end.

Definition bytes_of_ints (vs : list Z) : list Byte.byte := vs ≫= bytes_of_int.

Section Shuffle.
Context {T : Type}.
(** [sizeof(T)], and the object representation of a [T]: the bytes [memcpy]
    reads from a [T] and the [T] it leaves when it writes them. *)
Context (sizeof_T : nat).
Context (to_bytes : T → list Byte.byte) (of_bytes : list Byte.byte → T).

(** [shuffle(0xffffffff, var, laneMask, 32)], the call the header makes, as
    run by the threads of the block in lockstep.  The local [array] has
    [(sizeof(T) + sizeof(int) - 1) / sizeof(int)] elements; [uninit] gives,
    for each thread, the bytes it holds before the first [memcpy], which
    overwrites the first [sizeof(T)] of them.  Every element is then
    replaced by the same element of the array of the source lane, and the
    first [sizeof(T)] bytes are copied back into [var]. *)
Definition shuffle (uninit : Z → list Byte.byte) (var : Z → T)
    (threadIdx_x laneMask : Z) : T :=
  let array := λ t, ints_of_bytes (to_bytes (var t) ++ drop sizeof_T (uninit t)) in
  let array' :=
    imap (λ j _, let tmp := shfl_xor_sync (λ t, array t !!! j) threadIdx_x laneMask in tmp)
         (array threadIdx_x) in
  of_bytes (take sizeof_T (bytes_of_ints array')).

Context (REDUCTION_fold : T → T → T).

(** The warp loop of the overload of [reduce_output] for [complex<T>]: as
    [warp_loop], with [shuffle] in the place of [__shfl_xor_sync].  [uninit
    i t] is what the array of thread [t] holds at first in the round with
    mask [i]. *)
Fixpoint warp_loop_complex (uninit : Z → Z → list Byte.byte)
    (fuel : nat) (i : Z) (value : Z → T) : Z → T :=
  match fuel with
  | O => value
  | S fuel' =>
      if bool_decide (i >= 1) then
        warp_loop_complex uninit fuel' (Z.quot i 2)
          (λ t, let shuffle_value := shuffle (uninit i) value t i in
                REDUCTION_fold (value t) shuffle_value)
      else value
  end.

(** [reduce_output(result, value)], the overload for [complex<T>]. *)
Definition reduce_output_complex (uninit : Z → Z → list Byte.byte)
    (blockDim_x : Z) (value : Z → T) : option T :=
  let value := warp_loop_complex uninit (S (Z.to_nat 16)) 16 value in
  let trampoline := write_trampoline blockDim_x value in
  fold_trampoline REDUCTION_fold trampoline (value 0).
End Shuffle.






(** The lanes a lane has heard from, other than itself, after the rounds
    of the warp loop with the given lane masks: after a round with mask [i]
    a lane holds what it held combined with what lane xor [i] held. *)
Definition xor_span (masks : list Z) : list Z :=
  foldl (λ G i, G ++ i :: (Z.lxor i <$> G)) [] masks.

(* ===================================================================== *)
(** * Properties: machine integers and the grid                           *)
(* ===================================================================== *)

Lemma wrap_unsigned_small w x : 0 <= x < 2 ^ w → wrap_unsigned w x = x.
Proof. intros H. unfold wrap_unsigned. by apply Z.mod_small. Qed.

Lemma coord_t_small x : in_coord_t x → coord_t x = x.
Proof.
  unfold in_coord_t, coord_t, wrap_signed. intros H.
  change (2 ^ (64 - 1)) with (2 ^ 63). rewrite Z.mod_small; [lia|].
  change (2 ^ 64) with (2 ^ 63 + 2 ^ 63). lia.
Qed.

(** The index a thread computes is the mathematical one reduced modulo
    [2^32]. *)
Lemma global_idx_mod t :
  global_idx t = (blockIdx_x t * blockDim_x t + threadIdx_x t) mod 2 ^ 32.
Proof.
  unfold global_idx, size_t, uint32, wrap_unsigned.
  rewrite Zplus_mod_idemp_l.
  apply Z.mod_small.
  pose proof (Z.mod_pos_bound (blockIdx_x t * blockDim_x t + threadIdx_x t) (2 ^ 32)).
  change (2 ^ 64) with (2 ^ 32 * 2 ^ 32). lia.
Qed.

Lemma global_idx_range t : 0 <= global_idx t < 2 ^ 32.
Proof. rewrite global_idx_mod. apply Z.mod_pos_bound. lia. Qed.

Lemma elem_of_grid_threads g d t :
  t ∈ grid_threads g d ↔
  0 <= blockIdx_x t < g ∧ blockDim_x t = d ∧ 0 <= threadIdx_x t < d.
Proof.
  unfold grid_threads. rewrite list_elem_of_bind. split.
  - intros (b & Ht & Hb). apply list_elem_of_fmap in Ht as (i & -> & Hi).
    apply elem_of_seqZ in Hb, Hi. simpl. lia.
  - intros (Hb & Hd & Ht). exists (blockIdx_x t). split.
    + apply list_elem_of_fmap. exists (threadIdx_x t). split.
      * destruct t; simpl in *; by subst.
      * apply elem_of_seqZ. lia.
    + apply elem_of_seqZ. lia.
Qed.

Lemma NoDup_grid_threads g d : NoDup (grid_threads g d).
Proof.
  unfold grid_threads. apply NoDup_bind.
  - intros b1 b2 t _ _ H1 H2.
    apply list_elem_of_fmap in H1 as (i1 & -> & _).
    apply list_elem_of_fmap in H2 as (i2 & Heq & _). by injection Heq.
  - intros b _. apply NoDup_fmap_2_strong; [|apply NoDup_seqZ].
    intros i1 i2 _ _ Heq. by injection Heq.
  - apply NoDup_seqZ.
Qed.

Lemma length_grid_threads g d :
  0 <= g → 0 <= d → Z.of_nat (length (grid_threads g d)) = g * d.
Proof.
  intros Hg Hd. unfold grid_threads.
  assert (∀ l : list Z,
    Z.of_nat (length (b ← l; (mkThread b d) <$> seqZ 0 d)) = Z.of_nat (length l) * d) as H.
  { induction l as [|b l IH]; [done|].
    rewrite bind_cons, length_app, length_fmap, length_seqZ. simpl length. lia. }
  rewrite H, length_seqZ. lia.
Qed.

(* ===================================================================== *)
(** * Properties: the trilu kernel                                        *)
(* ===================================================================== *)

Section KernelFacts.
Context {VAL : Type} (zero : VAL).
Implicit Types (out : gmap Point VAL) (inp : Point → VAL).

(** The kernel is a guarded store of [trilu_element]. *)
Lemma trilu_kernel_unfold DIM LOWER out inp pitches lo volume k t :
  trilu_kernel zero DIM LOWER out inp pitches lo volume k t =
  if bool_decide (global_idx t >= volume) then out
  else <[unflatten pitches (global_idx t) lo :=
           trilu_element zero DIM LOWER inp k (unflatten pitches (global_idx t) lo)]> out.
Proof.
  unfold trilu_kernel, trilu_element.
  destruct (bool_decide (global_idx t >= volume)); [done|].
  destruct LOWER; simpl.
  - by destruct (lower_cond DIM k _).
  - by destruct (upper_cond DIM k _).
Qed.

(** A thread whose index is not below [volume] leaves the store as it is. *)
Lemma trilu_kernel_out_of_range DIM LOWER out inp pitches lo volume k t :
  volume <= global_idx t →
  trilu_kernel zero DIM LOWER out inp pitches lo volume k t = out.
Proof.
  intros H. rewrite trilu_kernel_unfold.
  rewrite bool_decide_eq_true_2; [done|lia].
Qed.
End KernelFacts.

(** C1: a thread whose linear index [idx] is below [volume] performs exactly
    one store, at [p = pitches.unflatten(idx, lo)]: the result is the old
    store with [p] overwritten.  In the LOWER instantiation the value stored
    is [in[p]] when [p[DIM-2] + k >= p[DIM-1]] and [0] otherwise; in the
    upper instantiation it is [in[p]] when [p[DIM-2] + k <= p[DIM-1]] and [0]
    otherwise.  Every other point keeps its value. *)
Theorem trilu_kernel_elementwise {VAL : Type} (zero : VAL)
    (DIM : nat) (out : gmap Point VAL) (inp : Point → VAL)
    (pitches : Pitches) (lo : Point) (volume k : Z) (t : Thread) :
  global_idx t < volume →
  let p := unflatten pitches (global_idx t) lo in
  let lower := trilu_kernel zero DIM true out inp pitches lo volume k t in
  let upper := trilu_kernel zero DIM false out inp pitches lo volume k t in
  lower = <[p := if bool_decide (coord_t (coord p (DIM - 2) + k) >= coord p (DIM - 1))
                 then inp p else zero]> out
  ∧ upper = <[p := if bool_decide (coord_t (coord p (DIM - 2) + k) <= coord p (DIM - 1))
                   then inp p else zero]> out
  ∧ ∀ q, q ≠ p → lower !! q = out !! q ∧ upper !! q = out !! q.
Proof.
  intros Hidx p lower upper. subst lower upper.
  rewrite !trilu_kernel_unfold.
  rewrite bool_decide_eq_false_2 by lia. fold p.
  split_and!; [done..|].
  intros q Hq. by rewrite !lookup_insert_ne.
Qed.

Lemma trilu_kernel_elementwise_witness :
  global_idx (mkThread 0 128 4) < 6
  ∧ trilu_kernel 0 2 true ∅ (λ _, 7) (c_order_pitches [3]) [0; 0] 6 0 (mkThread 0 128 4)
    = <[ [1; 1] := 7 ]> ∅
  ∧ trilu_kernel 0 2 false ∅ (λ _, 7) (c_order_pitches [3]) [0; 0] 6 2 (mkThread 0 128 4)
    = <[ [1; 1] := 0 ]> ∅.
Proof.
  assert (global_idx (mkThread 0 128 4) < 6) as H by (vm_compute; reflexivity).
  split; [exact H|]. split.
  - exact (proj1 (trilu_kernel_elementwise 0 2 ∅ (λ _, 7) (c_order_pitches [3])
                    [0; 0] 6 0 (mkThread 0 128 4) H)).
  - exact (proj1 (proj2 (trilu_kernel_elementwise 0 2 ∅ (λ _, 7) (c_order_pitches [3])
                    [0; 0] 6 2 (mkThread 0 128 4) H))).
Defined.

(* ===================================================================== *)
(** * Properties: the launch                                              *)
(* ===================================================================== *)

(** Folds of guarded stores whose value depends on the point only: the
    result at a point is decided by whether some element of the list stores
    there, whatever the order. *)
Section WriteFold.
Context {A VAL : Type} (f : Point → VAL) (pt : A → option Point).

Lemma foldl_writes_lookup (l : list A) (out : gmap Point VAL) (q : Point) :
  let r := foldl (λ o a, match pt a with Some p => <[p := f p]> o | None => o end) out l in
  ((∃ a, a ∈ l ∧ pt a = Some q) ∧ r !! q = Some (f q))
  ∨ ((∀ a, a ∈ l → pt a ≠ Some q) ∧ r !! q = out !! q).
Proof.
  revert out. induction l as [|a l IH]; intros out; simpl.
  - right. split; [|done]. intros a Ha. by apply not_elem_of_nil in Ha.
  - destruct (IH (match pt a with Some p => <[p := f p]> out | None => out end))
      as [[(b & Hb & Hpt) Hr] | [Hno Hr]].
    + left. split; [|done]. exists b. split; [by apply list_elem_of_further|done].
    + destruct (pt a) as [p|] eqn:Hp.
      * destruct (decide (p = q)) as [->|Hne].
        -- left. split; [exists a; split; [apply list_elem_of_here|done]|].
           by rewrite Hr, lookup_insert_eq.
        -- right. split; [|by rewrite Hr, lookup_insert_ne].
           intros b [->|Hb]%elem_of_cons; [congruence|by apply Hno].
      * right. split; [|done].
        intros b [->|Hb]%elem_of_cons; [congruence|by apply Hno].
Qed.
End WriteFold.

Lemma foldl_writes_eq {A B VAL : Type} (f : Point → VAL)
    (pt1 : A → option Point) (pt2 : B → option Point)
    (l1 : list A) (l2 : list B) (out : gmap Point VAL) :
  (∀ q, (∃ a, a ∈ l1 ∧ pt1 a = Some q) ↔ (∃ b, b ∈ l2 ∧ pt2 b = Some q)) →
  foldl (λ o a, match pt1 a with Some p => <[p := f p]> o | None => o end) out l1
  = foldl (λ o b, match pt2 b with Some p => <[p := f p]> o | None => o end) out l2.
Proof.
  intros Hiff. apply map_eq. intros q.
  destruct (foldl_writes_lookup f pt1 l1 out q) as [[H1 ->] | [H1 ->]];
    destruct (foldl_writes_lookup f pt2 l2 out q) as [[H2 ->] | [H2 ->]];
    try done.
  - apply Hiff in H1 as (b & Hb & Hpt). by destruct (H2 b Hb).
  - apply Hiff in H2 as (a & Ha & Hpt). by destruct (H1 a Ha).
Qed.

Lemma foldl_ext_all {A B : Type} (f g : B → A → B) (l : list A) (b : B) :
  (∀ b a, f b a = g b a) → foldl f b l = foldl g b l.
Proof. intros H. revert b. induction l as [|a l IH]; intros b; simpl; [done|]. by rewrite H, IH. Qed.

Section LaunchFacts.
Context {VAL : Type} (zero : VAL).
Implicit Types (out : gmap Point VAL) (inp : Point → VAL).

(** The point a thread stores to, if it stores at all. *)
Lemma trilu_launch_as_writes DIM LOWER out inp pitches lo volume k sched :
  trilu_launch zero DIM LOWER out inp pitches lo volume k sched =
  foldl (λ o t, match (if bool_decide (global_idx t >= volume) then None
                       else Some (unflatten pitches (global_idx t) lo)) with
                | Some p => <[p := trilu_element zero DIM LOWER inp k p]> o
                | None => o
                end) out sched.
Proof.
  unfold trilu_launch. apply foldl_ext_all. intros o t.
  rewrite trilu_kernel_unfold. by destruct (bool_decide _).
Qed.

Lemma trilu_sequential_as_writes DIM LOWER out inp pitches lo volume k :
  trilu_sequential zero DIM LOWER out inp pitches lo volume k =
  foldl (λ o idx, match Some (unflatten pitches idx lo) with
                  | Some p => <[p := trilu_element zero DIM LOWER inp k p]> o
                  | None => o
                  end) out (seqZ 0 volume).
Proof. done. Qed.

(** X3: two launches whose threads compute the same set of indices below
    [volume] leave the same store: the order of the threads, and how often
    an index occurs, do not matter. *)
Lemma trilu_launch_order_irrelevant DIM LOWER out inp pitches lo volume k sched1 sched2 :
  (∀ t, t ∈ sched1 ↔ t ∈ sched2) →
  trilu_launch zero DIM LOWER out inp pitches lo volume k sched1
  = trilu_launch zero DIM LOWER out inp pitches lo volume k sched2.
Proof.
  intros H. rewrite !trilu_launch_as_writes. apply foldl_writes_eq.
  intros q. split; intros (t & Ht & Hq); exists t; (split; [by apply H|done]).
Qed.
End LaunchFacts.

(** The launch configuration when [volume] is at most [2^32]. *)
Lemma launch_blocks_small volume :
  0 <= volume <= 2 ^ 32 →
  uint32 (launch_blocks volume) = (volume + 127) / 128
  ∧ 0 <= (volume + 127) / 128 <= 2 ^ 25.
Proof.
  intros H. unfold launch_blocks, size_t, uint32, THREADS_PER_BLOCK.
  rewrite (wrap_unsigned_small 64 (volume + 128)) by lia.
  rewrite (wrap_unsigned_small 64 (volume + 128 - 1)) by lia.
  replace (volume + 128 - 1) with (volume + 127) by lia.
  assert (0 <= (volume + 127) / 128 <= 2 ^ 25) as Hb.
  { split; [apply Z.div_pos; lia|].
    assert ((volume + 127) / 128 < 2 ^ 25 + 1); [|lia].
    apply Z.div_lt_upper_bound; lia. }
  split; [|done]. apply wrap_unsigned_small. lia.
Qed.

Lemma TriluImplBody_GPU_small volume :
  0 <= volume <= 2 ^ 32 →
  TriluImplBody_GPU volume = [KernelLaunch ((volume + 127) / 128) THREADS_PER_BLOCK].
Proof.
  intros H. unfold TriluImplBody_GPU.
  destruct (launch_blocks_small volume H) as [-> _]. done.
Qed.

(** Below [2^32] every index is computed by exactly one thread of the grid. *)
Lemma grid_covers_small volume idx :
  0 <= volume <= 2 ^ 32 → 0 <= idx < volume →
  ∃ t, t ∈ grid_threads ((volume + 127) / 128) THREADS_PER_BLOCK
       ∧ global_idx t = idx
       ∧ ∀ t', t' ∈ grid_threads ((volume + 127) / 128) THREADS_PER_BLOCK →
               global_idx t' = idx → t' = t.
Proof.
  intros Hv Hidx. unfold THREADS_PER_BLOCK.
  assert ((volume + 127) / 128 * 128 <= volume + 127) as Hq
    by (pose proof (Z.mul_div_le (volume + 127) 128); lia).
  assert (volume + 127 < ((volume + 127) / 128 + 1) * 128) as Hq'
    by (pose proof (Z.mod_pos_bound (volume + 127) 128);
        pose proof (Z.div_mod (volume + 127) 128); lia).
  assert ((volume + 127) / 128 < 2 ^ 25 + 1) as Hg
    by (apply Z.div_lt_upper_bound; lia).
  exists (mkThread (idx / 128) 128 (idx mod 128)).
  pose proof (Z.mod_pos_bound idx 128) as Hm.
  pose proof (Z.div_mod idx 128) as Hd.
  assert (0 <= idx / 128) by (apply Z.div_pos; lia).
  split_and!.
  - apply elem_of_grid_threads. simpl. split_and!; lia.
  - rewrite global_idx_mod. simpl. rewrite Z.mod_small; lia.
  - intros [b d j] (Hb & Hbd & Hj)%elem_of_grid_threads. simpl in *. subst d.
    rewrite global_idx_mod. simpl. rewrite Z.mod_small by lia.
    intros Heq. f_equal; lia.
Qed.

(** X5: the launch for a volume of at most [2^32] elements: one launch and
    no status check, of [ceil(volume / 128)] blocks of 128 threads; at least
    [volume] threads, all different; every index below [volume] is computed
    by exactly one of them. *)
Lemma TriluImplBody_GPU_covers_small volume :
  0 < volume <= 2 ^ 32 →
  let blocks := (volume + 127) / 128 in
  let threads := TriluImplBody_GPU volume ≫= launched_threads in
  TriluImplBody_GPU volume = [KernelLaunch blocks THREADS_PER_BLOCK]
  ∧ (blocks - 1) * THREADS_PER_BLOCK < volume <= blocks * THREADS_PER_BLOCK
  ∧ volume <= Z.of_nat (length threads)
  ∧ NoDup threads
  ∧ ∀ idx, 0 <= idx < volume →
      ∃ t, t ∈ threads ∧ global_idx t = idx
           ∧ ∀ t', t' ∈ threads → global_idx t' = idx → t' = t.
Proof.
  intros Hv blocks threads.
  assert (threads = grid_threads blocks THREADS_PER_BLOCK) as ->.
  { unfold threads. rewrite TriluImplBody_GPU_small by lia.
    rewrite bind_singleton. done. }
  assert ((blocks - 1) * 128 < volume <= blocks * 128) as Hb.
  { unfold blocks.
    pose proof (Z.mod_pos_bound (volume + 127) 128).
    pose proof (Z.div_mod (volume + 127) 128). lia. }
  split_and!.
  - apply TriluImplBody_GPU_small. lia.
  - unfold THREADS_PER_BLOCK. lia.
  - unfold THREADS_PER_BLOCK. lia.
  - rewrite length_grid_threads; unfold THREADS_PER_BLOCK; lia.
  - apply NoDup_grid_threads.
  - intros idx Hidx. apply grid_covers_small; lia.
Qed.

(** For a volume of at most [2^32] elements the launch does what the
    sequential loop does, in whatever order the threads of the grid run. *)
Lemma trilu_launch_sequential_small {VAL : Type} (zero : VAL)
    (DIM : nat) (LOWER : bool) (out : gmap Point VAL) (inp : Point → VAL)
    (pitches : Pitches) (lo : Point) (volume k : Z) (sched : list Thread) :
  0 <= volume <= 2 ^ 32 →
  sched ≡ₚ grid_threads ((volume + 127) / 128) THREADS_PER_BLOCK →
  trilu_launch zero DIM LOWER out inp pitches lo volume k sched
  = trilu_sequential zero DIM LOWER out inp pitches lo volume k.
Proof.
  intros Hv Hperm.
  rewrite trilu_launch_as_writes, trilu_sequential_as_writes.
  apply (foldl_writes_eq (trilu_element zero DIM LOWER inp k)
           (λ t, if bool_decide (global_idx t >= volume) then None
                 else Some (unflatten pitches (global_idx t) lo))
           (λ idx, Some (unflatten pitches idx lo))).
  intros q. split.
  - intros (t & Ht & Hq). destruct (bool_decide_reflect (global_idx t >= volume)); [done|].
    exists (global_idx t). split; [|done].
    apply elem_of_seqZ. pose proof (global_idx_range t). lia.
  - intros (idx & Hidx%elem_of_seqZ & Hq).
    destruct (grid_covers_small volume idx Hv) as (t & Ht & Hidx' & _); [lia|].
    exists t. split; [by rewrite Hperm|].
    rewrite bool_decide_eq_false_2 by lia. by rewrite Hidx'.
Qed.

(** C5, evaluated at [volume = 2^32 + 1]: the host code launches [2^25 + 1]
    blocks of 128 threads; thread 0 of block [2^25] computes index [0], as
    thread 0 of block 0 does, and no thread of the grid computes index
    [2^32], which is below [volume]. *)
Theorem trilu_launch_index_wraps :
  let volume := 2 ^ 32 + 1 in
  TriluImplBody_GPU volume = [KernelLaunch (2 ^ 25 + 1) 128]
  ∧ mkThread 0 128 0 ∈ grid_threads (2 ^ 25 + 1) 128
  ∧ mkThread (2 ^ 25) 128 0 ∈ grid_threads (2 ^ 25 + 1) 128
  ∧ global_idx (mkThread 0 128 0) = 0
  ∧ global_idx (mkThread (2 ^ 25) 128 0) = 0
  ∧ 2 ^ 32 < volume
  ∧ ∀ t, t ∈ grid_threads (2 ^ 25 + 1) 128 → global_idx t ≠ 2 ^ 32.
Proof.
  intros volume. split_and!.
  - vm_compute. reflexivity.
  - apply elem_of_grid_threads. simpl. lia.
  - apply elem_of_grid_threads. simpl. lia.
  - vm_compute. reflexivity.
  - vm_compute. reflexivity.
  - unfold volume. lia.
  - intros t _. pose proof (global_idx_range t). lia.
Qed.

(* ===================================================================== *)
(** * Properties: unflatten                                               *)
(* ===================================================================== *)

Lemma coord_t_shift_inj l i j :
  0 <= i < 2 ^ 64 → 0 <= j < 2 ^ 64 → coord_t (l + i) = coord_t (l + j) → i = j.
Proof.
  unfold coord_t, wrap_signed. intros Hi Hj H.
  change (2 ^ (64 - 1)) with (2 ^ 63) in H.
  assert ((l + i + 2 ^ 63) mod 2 ^ 64 = (l + j + 2 ^ 63) mod 2 ^ 64) as Hm by lia.
  pose proof (Z.div_mod (l + i + 2 ^ 63) (2 ^ 64)).
  pose proof (Z.div_mod (l + j + 2 ^ 63) (2 ^ 64)).
  assert (i - j = 2 ^ 64 * ((l + i + 2 ^ 63) / 2 ^ 64 - (l + j + 2 ^ 63) / 2 ^ 64)) by lia.
  nia.
Qed.

(** Distinct linear indices are sent to distinct points, whatever the
    (positive) pitches. *)
Lemma unflatten_c_order_inj pitches lo i j :
  Forall (λ pitch, 0 < pitch) pitches →
  length lo = S (length pitches) →
  0 <= i < 2 ^ 64 → 0 <= j < 2 ^ 64 →
  unflatten_c_order pitches i lo = unflatten_c_order pitches j lo →
  i = j.
Proof.
  intros Hpos. revert lo i j.
  induction Hpos as [|pitch pitches Hp _ IH]; intros lo i j Hlen Hi Hj Heq.
  - destruct lo as [|l lo]; [done|]. simpl in Heq.
    injection Heq as Heq. by apply (coord_t_shift_inj l).
  - destruct lo as [|l lo]; [done|]. simpl in Heq, Hlen.
    injection Heq as Hhd Htl.
    pose proof (Z.mod_pos_bound i pitch Hp). pose proof (Z.mod_pos_bound j pitch Hp).
    pose proof (Z.div_mod i pitch). pose proof (Z.div_mod j pitch).
    assert (0 <= i / pitch <= i) by (split; [apply Z.div_pos|apply Z.div_le_upper_bound]; nia).
    assert (0 <= j / pitch <= j) by (split; [apply Z.div_pos|apply Z.div_le_upper_bound]; nia).
    apply coord_t_shift_inj in Hhd; [|lia..].
    apply IH in Htl; [nia|lia..].
Qed.

(** A row of [2^32 + 1] elements: index [idx] is the point [(0, idx)]. *)
Lemma unflatten_long_row idx :
  0 <= idx <= 2 ^ 32 →
  unflatten (c_order_pitches [2 ^ 32 + 1]) idx [0; 0] = [0; idx].
Proof.
  intros H. unfold unflatten, c_order_pitches, unflatten_c_order.
  rewrite Z.div_small, Z.mod_small by lia.
  rewrite !coord_t_small; [done|unfold in_coord_t; lia..].
Qed.

(** C7, evaluated at [volume = 2^32 + 1]: let [p] be the point of index
    [2^32], and let it be the point of no smaller index (distinct indices
    unflatten to distinct points).  The sequential loop over [idx] from [0]
    to [volume - 1] stores the extracted element at [p]; the launch leaves
    [out[p]] as it was, whichever threads run and in whatever order, because
    every thread computes an index below [2^32]. *)
Theorem trilu_launch_misses_element {VAL : Type} (zero : VAL)
    (DIM : nat) (LOWER : bool) (out : gmap Point VAL) (inp : Point → VAL)
    (pitches : Pitches) (lo : Point) (k : Z) (sched : list Thread) :
  let volume := 2 ^ 32 + 1 in
  let p := unflatten pitches (2 ^ 32) lo in
  (∀ idx, 0 <= idx < 2 ^ 32 → unflatten pitches idx lo ≠ p) →
  trilu_sequential zero DIM LOWER out inp pitches lo volume k !! p
    = Some (trilu_element zero DIM LOWER inp k p)
  ∧ trilu_launch zero DIM LOWER out inp pitches lo volume k sched !! p = out !! p.
Proof.
  intros volume p Hinj. split.
  - rewrite trilu_sequential_as_writes.
    destruct (foldl_writes_lookup (trilu_element zero DIM LOWER inp k)
                (λ idx, Some (unflatten pitches idx lo)) (seqZ 0 volume) out p)
      as [[_ ->] | [Hno _]]; [done|].
    destruct (Hno (2 ^ 32)); [|done].
    apply elem_of_seqZ. unfold volume. lia.
  - rewrite trilu_launch_as_writes.
    destruct (foldl_writes_lookup (trilu_element zero DIM LOWER inp k)
                (λ t, if bool_decide (global_idx t >= volume) then None
                      else Some (unflatten pitches (global_idx t) lo)) sched out p)
      as [[(t & _ & Ht) _] | [_ ->]]; [|done].
    destruct (bool_decide (global_idx t >= volume)); [done|].
    injection Ht as Ht. destruct (Hinj (global_idx t) (global_idx_range t) Ht).
Qed.

Lemma trilu_launch_misses_element_witness :
  trilu_sequential 0 2 false ∅ (λ _, 1) (c_order_pitches [2 ^ 32 + 1]) [0; 0] (2 ^ 32 + 1) 0
    !! unflatten (c_order_pitches [2 ^ 32 + 1]) (2 ^ 32) [0; 0]
  = Some (trilu_element 0 2 false (λ _, 1) 0
            (unflatten (c_order_pitches [2 ^ 32 + 1]) (2 ^ 32) [0; 0]))
  ∧ trilu_launch 0 2 false ∅ (λ _, 1) (c_order_pitches [2 ^ 32 + 1]) [0; 0] (2 ^ 32 + 1) 0
      (grid_threads (2 ^ 25 + 1) 128)
    !! unflatten (c_order_pitches [2 ^ 32 + 1]) (2 ^ 32) [0; 0]
  = (∅ : gmap Point Z) !! unflatten (c_order_pitches [2 ^ 32 + 1]) (2 ^ 32) [0; 0].
Proof.
  apply (trilu_launch_misses_element 0 2 false ∅ (λ _, 1)
           (c_order_pitches [2 ^ 32 + 1]) [0; 0] 0 (grid_threads (2 ^ 25 + 1) 128)).
  intros idx Hidx. rewrite !unflatten_long_row by lia.
  intros Heq. injection Heq as Heq. lia.
Defined.

(* ===================================================================== *)
(** * Properties: lower and upper extraction together                     *)
(* ===================================================================== *)

(** Where the sum [p[DIM-2] + k] is representable, the test of the kernel is
    the comparison of integers. *)
Lemma lower_cond_exact DIM k p :
  in_coord_t (coord p (DIM - 2) + k) →
  lower_cond DIM k p = bool_decide (coord p (DIM - 2) + k >= coord p (DIM - 1)).
Proof. intros H. unfold lower_cond, row_plus_k. by rewrite coord_t_small. Qed.

Lemma upper_cond_exact DIM k p :
  in_coord_t (coord p (DIM - 2) + k) →
  upper_cond DIM k p = bool_decide (coord p (DIM - 2) + k <= coord p (DIM - 1)).
Proof. intros H. unfold upper_cond, row_plus_k. by rewrite coord_t_small. Qed.




(* ===================================================================== *)
(** * Properties: the error-check helpers and macros                      *)
(* ===================================================================== *)

Lemma host_bind_ret {A B} (a : A) (k : A → Host B) : host_bind (host_ret a) k = k a.
Proof. unfold host_bind, host_ret. by destruct (k a). Qed.

(** A helper either returns at once or prints one line and exits. *)
Lemma check_helper_cases sdk l status file line :
  (status = success_code sdk l ∧ check_helper sdk l status file line = host_ret tt)
  ∨ (status ≠ success_code sdk l
     ∧ ∃ format args,
         check_helper sdk l status file line = ([fprintf_stderr format args], Exited status)).
Proof.
  destruct (decide (status = success_code sdk l)) as [Heq|Hne]; [left|right]; (split; [done|]).
  - destruct l; simpl in *;
      unfold check_cuda, check_cublas, check_cufft, check_cusolver, check_cutensor;
      by rewrite bool_decide_eq_false_2 by (intros ?; done).
  - destruct l; simpl in *;
      unfold check_cuda, check_cublas, check_cufft, check_cusolver, check_cutensor;
      rewrite bool_decide_eq_true_2 by done; eauto.
Qed.


(** C3, as stated, fails: cuda_help.h defines error-check macros and
    helpers itself. *)
Lemma error_checks_not_all_external :
  ¬ (∀ d, d ∈ cuda_help_h → is_error_check d = true → defined_here d = false).
Proof.
  intros H.
  specialize (H (mkDecl "CHECK_CUDA" MacroDefinition)).
  assert (defined_here (mkDecl "CHECK_CUDA" MacroDefinition) = false) as Hd.
  { apply H; [|by vm_compute].
    unfold cuda_help_h. do 5 apply list_elem_of_further. apply list_elem_of_here. }
  done.
Qed.

(** C3, amended: the error checks that cuda_help.h declares are the five
    macros CHECK_CUDA, CHECK_CUBLAS, CHECK_CUFFT, CHECK_CUSOLVER and
    CHECK_CUTENSOR and the five helpers [check_cuda], [check_cublas],
    [check_cufft], [check_cusolver] and [check_cutensor]; all ten have their
    definition in the header; each macro does what the helper of its
    library does with the status; and the helper takes from the vendor SDK
    the success code it compares with. *)
Theorem error_checks_defined_in_cuda_help :
  List.filter is_error_check cuda_help_h =
    ((λ l, mkDecl (macro_name l) MacroDefinition) <$> status_libraries)
    ++ ((λ l, mkDecl (helper_name l) FunctionDefinition) <$> status_libraries)
  ∧ (∀ d, d ∈ cuda_help_h → is_error_check d = true → defined_here d = true)
  ∧ (∀ sdk l status file line,
       CHECK_macro sdk l status file line = check_helper sdk l status file line)
  ∧ (∀ sdk l file line, check_helper sdk l (success_code sdk l) file line = host_ret tt).
Proof.
  split_and!.
  - by vm_compute.
  - intros d Hd Hc. unfold cuda_help_h in Hd.
    repeat (apply elem_of_cons in Hd as [-> | Hd]; [by vm_compute || done|]).
    by apply not_elem_of_nil in Hd.
  - intros sdk l status file line. by destruct l.
  - intros sdk l file line.
    by destruct (check_helper_cases sdk l (success_code sdk l) file line) as [[_ ?]|[? _]].
Qed.

(* ===================================================================== *)
(** * Properties: the CPU syrk variant                                    *)
(* ===================================================================== *)

(** C2, as stated, fails for the complex types: the routine called is not
    the symmetric rank-k routine of the element type. *)
Lemma syrk_complex_not_symmetric_routine :
  ¬ (∀ CODE lhs rhs m n,
       SyrkImplBody_CPU CODE lhs rhs m n =
       cblas_rank_k (symmetric_rank_k_routine CODE)
         CblasColMajor CblasLower CblasNoTrans m n (-1) rhs m 1 lhs m).
Proof.
  intros H. specialize (H COMPLEX64_LT 4096 8192 3 2). discriminate H.
Qed.

(** C2, amended: for every supported element type and every [m], [n] the CPU
    syrk variant makes one CBLAS call, with the arguments (column-major,
    lower, no-transpose, [m], [n], alpha = -1.0, [rhs], lda = [m],
    beta = 1.0, [lhs], ldc = [m]); the routine is the symmetric rank-k
    update [cblas_ssyrk] / [cblas_dsyrk] for float / double, and the
    Hermitian rank-k update [cblas_cherk] / [cblas_zherk] for
    complex<float> / complex<double>. *)
Theorem syrk_cpu_call (CODE : LegateTypeCode) (lhs rhs : ptr) (m n : Z) :
  SyrkImplBody_CPU CODE lhs rhs m n =
  cblas_rank_k (match CODE with
                | FLOAT_LT => ssyrk
                | DOUBLE_LT => dsyrk
                | COMPLEX64_LT => cherk
                | COMPLEX128_LT => zherk
                end)
    CblasColMajor CblasLower CblasNoTrans m n (-1) rhs m 1 lhs m.
Proof. by destruct CODE. Qed.

(* ===================================================================== *)
(** * Properties: the OpenMP contract variant and process-level state     *)
(* ===================================================================== *)

Lemma setenv_lookup name value overwrite env :
  setenv name value overwrite env !! name =
  Some (match env !! name with
        | Some old => if overwrite then value else old
        | None => value
        end).
Proof.
  unfold setenv. destruct (env !! name) as [old|] eqn:H.
  - destruct overwrite; [by rewrite lookup_insert_eq|done].
  - by rewrite lookup_insert_eq.
Qed.

Lemma setenv_lookup_ne name name' value overwrite env :
  name ≠ name' → setenv name value overwrite env !! name' = env !! name'.
Proof.
  intros Hne. unfold setenv.
  destruct (env !! name); [destruct overwrite|]; by rewrite ?lookup_insert_ne.
Qed.

(** Once the variable is set, [setenv] without overwrite changes nothing. *)
Lemma setenv_keep name value env :
  is_Some (env !! name) → setenv name value false env = env.
Proof. intros [old H]. unfold setenv. by rewrite H. Qed.

(** C4, as stated, fails: the OpenMP contract variant does not enter its
    template in the state it was called in. *)
Lemma omp_variant_changes_state :
  ¬ (∀ (contract_template : unit → ProcState → Run) context σ,
       omp_variant contract_template context σ = contract_template context σ).
Proof.
  intros H.
  pose proof (f_equal (λ r : Run, environ r.1 !! TBLIS_NUM_THREADS)
                (H returns_at_once tt (mkProc ∅ 8 4))) as Habs.
  unfold omp_variant, returns_at_once, omp_get_max_threads in Habs.
  cbn [fst environ openblas_threads omp_max_threads] in Habs.
  unfold TBLIS_NUM_THREADS in Habs.
  by rewrite setenv_lookup, lookup_empty in Habs.
Qed.

(** The state in which the OpenMP contract variant enters its template. *)
Lemma omp_variant_entry {TaskContext : Type}
    (contract_template : TaskContext → ProcState → Run) context σ :
  ∃ σ', omp_variant contract_template context σ = contract_template context σ'
    ∧ environ σ' !! TBLIS_NUM_THREADS
      = Some (default (pretty (omp_max_threads σ)) (environ σ !! TBLIS_NUM_THREADS))
    ∧ (∀ name, name ≠ TBLIS_NUM_THREADS → environ σ' !! name = environ σ !! name)
    ∧ openblas_threads σ' = openblas_threads σ
    ∧ omp_max_threads σ' = omp_max_threads σ.
Proof.
  eexists. split; [reflexivity|]. cbn [environ openblas_threads omp_max_threads].
  unfold TBLIS_NUM_THREADS, omp_get_max_threads. split_and!; try done.
  - rewrite setenv_lookup. by destruct (environ σ !! _).
  - intros name Hne. by apply setenv_lookup_ne.
Qed.

(** C4, amended: [ContractImplBody] of the OpenMP variant makes four vendor
    calls and nothing else: it initialises the three [tblis_tensor]
    structures from the dimension counts and the data, shape and stride
    pointers it was given, unchanged, and calls [tblis_tensor_mult] on them
    with the mode pointers it was given; it reads and writes no array
    element.  The OpenMP contract variant, before it enters its template,
    sets the environment variable TBLIS_NUM_THREADS to the value of
    [omp_get_max_threads()] unless the variable is already set, and changes
    nothing else of the process state. *)
Theorem contract_omp_effects :
  (∀ CODE lhs_data lhs_ndim lhs_shape lhs_strides lhs_modes
       rhs1_data rhs1_ndim rhs1_shape rhs1_strides rhs1_modes
       rhs2_data rhs2_ndim rhs2_shape rhs2_strides rhs2_modes,
     ContractImplBody_OMP CODE
       lhs_data lhs_ndim lhs_shape lhs_strides lhs_modes
       rhs1_data rhs1_ndim rhs1_shape rhs1_strides rhs1_modes
       rhs2_data rhs2_ndim rhs2_shape rhs2_strides rhs2_modes
     = [ tblis_init_tensor (tblis_init_of CODE) "lhs" lhs_ndim lhs_shape lhs_data lhs_strides;
         tblis_init_tensor (tblis_init_of CODE) "rhs1" rhs1_ndim rhs1_shape rhs1_data rhs1_strides;
         tblis_init_tensor (tblis_init_of CODE) "rhs2" rhs2_ndim rhs2_shape rhs2_data rhs2_strides;
         tblis_tensor_mult nullptr nullptr "rhs1" rhs1_modes "rhs2" rhs2_modes "lhs" lhs_modes ])
  ∧ (∀ (TaskContext : Type) (contract_template : TaskContext → ProcState → Run) context σ,
       ∃ σ', omp_variant contract_template context σ = contract_template context σ'
         ∧ environ σ' !! TBLIS_NUM_THREADS
           = Some (default (pretty (omp_max_threads σ)) (environ σ !! TBLIS_NUM_THREADS))
         ∧ (∀ name, name ≠ TBLIS_NUM_THREADS → environ σ' !! name = environ σ !! name)
         ∧ openblas_threads σ' = openblas_threads σ
         ∧ omp_max_threads σ' = omp_max_threads σ).
Proof.
  split.
  - intros CODE. by destruct CODE.
  - intros TaskContext contract_template context σ. apply omp_variant_entry.
Qed.

(** C6, as stated, fails.  An invocation of the OpenMP contract variant in a
    process with four OpenMP threads and no TBLIS_NUM_THREADS leaves the
    variable set to 4; a later invocation, in a process with eight OpenMP
    threads, enters its template with the variable at 8 when it is the
    first and at 4 when it comes after the other.  The CPU syrk variant of
    an OpenMP build leaves OpenBLAS at one thread. *)
Lemma variants_leave_settings_behind :
  let earlier := mkProc ∅ 8 4 in
  let after_earlier := (omp_variant returns_at_once tt earlier).1 in
  let alone := mkProc ∅ 8 8 in
  let second := mkProc (environ after_earlier) 8 8 in
  environ earlier !! TBLIS_NUM_THREADS = None
  ∧ environ after_earlier !! TBLIS_NUM_THREADS = Some "4"
  ∧ environ (omp_variant returns_at_once tt alone).1 !! TBLIS_NUM_THREADS = Some "8"
  ∧ environ (omp_variant returns_at_once tt second).1 !! TBLIS_NUM_THREADS = Some "4"
  ∧ openblas_threads earlier = 8
  ∧ openblas_threads (cpu_variant returns_at_once true tt earlier).1 = 1.
Proof.
  intros earlier after_earlier alone second.
  subst second after_earlier earlier alone.
  unfold omp_variant, cpu_variant, returns_at_once, omp_get_max_threads,
    openblas_set_num_threads, TBLIS_NUM_THREADS.
  cbn [fst environ openblas_threads omp_max_threads].
  rewrite !setenv_lookup, lookup_empty. split_and!; done.
Qed.

(** C6, amended: two variants change a setting of the process that later
    invocations read, and nothing else of the process state.  The OpenMP
    contract variant enters its template with TBLIS_NUM_THREADS set to the
    decimal of [omp_get_max_threads()] if the variable was unset and left
    at its value if it was set, and with every other environment variable,
    the OpenBLAS thread count and the OpenMP thread count as they were; so
    after an invocation the variable is set, later invocations change
    nothing, and the value the first invocation chose stays.  The CPU syrk
    variant enters its template, in an OpenMP build, with the OpenBLAS
    thread count set to 1 and the environment and the OpenMP thread count
    as they were, and in other builds in the state it was called in.
    Neither touches the setting of the other, and the two act in either
    order with the same result. *)
Theorem variants_process_footprint {TaskContext : Type}
    (template : TaskContext → ProcState → Run) (context : TaskContext) (σ : ProcState) :
  cpu_variant template true context σ
    = template context (mkProc (environ σ) 1 (omp_max_threads σ))
  ∧ cpu_variant template false context σ = template context σ
  ∧ (is_Some (environ σ !! TBLIS_NUM_THREADS) →
       omp_variant template context σ = template context σ)
  ∧ is_Some (environ (omp_variant returns_at_once context σ).1 !! TBLIS_NUM_THREADS)
  ∧ omp_variant template context (omp_variant returns_at_once context σ).1
    = template context (omp_variant returns_at_once context σ).1
  ∧ openblas_threads (omp_variant returns_at_once context σ).1 = openblas_threads σ
  ∧ environ (cpu_variant returns_at_once true context σ).1 = environ σ
  ∧ (omp_variant returns_at_once context (cpu_variant returns_at_once true context σ).1).1
    = (cpu_variant returns_at_once true context (omp_variant returns_at_once context σ).1).1
  ∧ omp_variant template context σ
    = template context (omp_variant returns_at_once context σ).1
  ∧ (omp_variant returns_at_once context σ).2 = []
  ∧ environ (omp_variant returns_at_once context σ).1 !! TBLIS_NUM_THREADS
    = Some (default (pretty (omp_max_threads σ)) (environ σ !! TBLIS_NUM_THREADS))
  ∧ (environ σ !! TBLIS_NUM_THREADS = None →
       environ (omp_variant returns_at_once context σ).1
       = <[TBLIS_NUM_THREADS := pretty (omp_max_threads σ)]> (environ σ))
  ∧ (∀ name, name ≠ TBLIS_NUM_THREADS →
       environ (omp_variant returns_at_once context σ).1 !! name = environ σ !! name)
  ∧ omp_max_threads (omp_variant returns_at_once context σ).1 = omp_max_threads σ
  ∧ cpu_variant template true context σ
    = template context (cpu_variant returns_at_once true context σ).1
  ∧ openblas_threads (cpu_variant returns_at_once true context σ).1 = 1
  ∧ omp_max_threads (cpu_variant returns_at_once true context σ).1 = omp_max_threads σ
  ∧ (cpu_variant returns_at_once false context σ).1 = σ.
Proof.
  assert (∀ σ0, is_Some (environ σ0 !! TBLIS_NUM_THREADS) →
                omp_variant template context σ0 = template context σ0) as Hkeep.
  { intros [env nb no] Hs. unfold omp_variant.
    cbn [environ openblas_threads omp_max_threads] in *.
    by rewrite setenv_keep. }
  assert (is_Some (environ (omp_variant returns_at_once context σ).1 !! TBLIS_NUM_THREADS))
    as Hset.
  { unfold omp_variant, returns_at_once, TBLIS_NUM_THREADS.
    cbn [fst environ]. rewrite setenv_lookup. eauto. }
  split_and!; try done.
  - by apply Hkeep.
  - by apply Hkeep.
  - unfold omp_variant, returns_at_once, TBLIS_NUM_THREADS, omp_get_max_threads.
    cbn [fst environ]. rewrite setenv_lookup. by destruct (environ σ !! _).
  - intros Hnone. unfold omp_variant, returns_at_once, omp_get_max_threads.
    cbn [fst environ]. unfold setenv. unfold TBLIS_NUM_THREADS in Hnone. by rewrite Hnone.
  - intros name Hne. unfold omp_variant, returns_at_once.
    cbn [fst environ]. by apply setenv_lookup_ne.
Qed.

(* ===================================================================== *)
(** * Further properties of the trilu launch                              *)
(* ===================================================================== *)

(** X1: whatever the order of the threads and however often a thread
    occurs in it, after the launch the point of every thread that ran with
    an index below [volume] holds the extracted element of that point. *)
Theorem trilu_launch_written {VAL : Type} (zero : VAL)
    (DIM : nat) (LOWER : bool) (out : gmap Point VAL) (inp : Point → VAL)
    (pitches : Pitches) (lo : Point) (volume k : Z) (sched : list Thread) (t : Thread) :
  t ∈ sched → global_idx t < volume →
  let p := unflatten pitches (global_idx t) lo in
  trilu_launch zero DIM LOWER out inp pitches lo volume k sched !! p
  = Some (trilu_element zero DIM LOWER inp k p).
Proof.
  intros Ht Hidx p. rewrite trilu_launch_as_writes.
  destruct (foldl_writes_lookup (trilu_element zero DIM LOWER inp k)
              (λ t, if bool_decide (global_idx t >= volume) then None
                    else Some (unflatten pitches (global_idx t) lo)) sched out p)
    as [[_ ->] | [Hno _]]; [done|].
  destruct (Hno t Ht). by rewrite bool_decide_eq_false_2 by lia.
Qed.

(** X2: the launch stores nowhere else: a point that is not the point of a
    thread that ran with an index below [volume] holds after the launch
    what [out] held before. *)
Theorem trilu_launch_frame {VAL : Type} (zero : VAL)
    (DIM : nat) (LOWER : bool) (out : gmap Point VAL) (inp : Point → VAL)
    (pitches : Pitches) (lo : Point) (volume k : Z) (sched : list Thread) (q : Point) :
  (∀ t, t ∈ sched → global_idx t < volume → unflatten pitches (global_idx t) lo ≠ q) →
  trilu_launch zero DIM LOWER out inp pitches lo volume k sched !! q = out !! q.
Proof.
  intros Hq. rewrite trilu_launch_as_writes.
  destruct (foldl_writes_lookup (trilu_element zero DIM LOWER inp k)
              (λ t, if bool_decide (global_idx t >= volume) then None
                    else Some (unflatten pitches (global_idx t) lo)) sched out q)
    as [[(t & Ht & Hp) _] | [_ ->]]; [|done].
  destruct (bool_decide_reflect (global_idx t >= volume)); [done|].
  injection Hp as Hp. destruct (Hq t Ht); [lia|done].
Qed.

(** X4: launching the kernel again, with the same arguments, on threads
    that already ran in the first launch, leaves the store of the first
    launch as it is. *)
Theorem trilu_launch_again {VAL : Type} (zero : VAL)
    (DIM : nat) (LOWER : bool) (out : gmap Point VAL) (inp : Point → VAL)
    (pitches : Pitches) (lo : Point) (volume k : Z) (sched1 sched2 : list Thread) :
  (∀ t, t ∈ sched2 → t ∈ sched1) →
  trilu_launch zero DIM LOWER
    (trilu_launch zero DIM LOWER out inp pitches lo volume k sched1)
    inp pitches lo volume k sched2
  = trilu_launch zero DIM LOWER out inp pitches lo volume k sched1.
Proof.
  intros Hsub. apply map_eq. intros q.
  rewrite (trilu_launch_as_writes zero DIM LOWER (trilu_launch _ _ _ _ _ _ _ _ _ sched1)).
  destruct (foldl_writes_lookup (trilu_element zero DIM LOWER inp k)
              (λ t, if bool_decide (global_idx t >= volume) then None
                    else Some (unflatten pitches (global_idx t) lo)) sched2
              (trilu_launch zero DIM LOWER out inp pitches lo volume k sched1) q)
    as [[(t & Ht & Hp) ->] | [_ ->]]; [|done].
  destruct (bool_decide_reflect (global_idx t >= volume)); [done|].
  injection Hp as <-. symmetry. apply trilu_launch_written; [by apply Hsub|lia].
Qed.

(** X6: for a volume of at most [2^32] elements (an empty volume
    included) the threads that [TriluImplBody] launches, run in any order,
    leave the store that the sequential loop over [idx] from [0] to
    [volume - 1] leaves. *)
Theorem trilu_gpu_refines_sequential {VAL : Type} (zero : VAL)
    (DIM : nat) (LOWER : bool) (out : gmap Point VAL) (inp : Point → VAL)
    (pitches : Pitches) (lo : Point) (volume k : Z) (sched : list Thread) :
  0 <= volume <= 2 ^ 32 →
  sched ≡ₚ TriluImplBody_GPU volume ≫= launched_threads →
  trilu_launch zero DIM LOWER out inp pitches lo volume k sched
  = trilu_sequential zero DIM LOWER out inp pitches lo volume k.
Proof.
  intros Hv Hs. apply trilu_launch_sequential_small; [done|].
  rewrite Hs, TriluImplBody_GPU_small, bind_singleton by done. done.
Qed.

(** X8: extractions compose.  A thread that extracts with ([L1], [k1])
    from the array extracted with ([L2], [k2]) stores what a thread stores
    that extracts with ([L2], [k2]) from the array extracted with ([L1],
    [k1]); and extracting a second time with the same triangle and offset
    stores what the first extraction stored. *)
Theorem trilu_kernel_compose {VAL : Type} (zero : VAL)
    (DIM : nat) (L1 L2 : bool) (out : gmap Point VAL) (inp : Point → VAL)
    (pitches : Pitches) (lo : Point) (volume k1 k2 : Z) (t : Thread) :
  trilu_kernel zero DIM L1 out (trilu_element zero DIM L2 inp k2) pitches lo volume k1 t
  = trilu_kernel zero DIM L2 out (trilu_element zero DIM L1 inp k1) pitches lo volume k2 t
  ∧ trilu_kernel zero DIM L1 out (trilu_element zero DIM L1 inp k1) pitches lo volume k1 t
    = trilu_kernel zero DIM L1 out inp pitches lo volume k1 t.
Proof.
  rewrite !trilu_kernel_unfold. destruct (bool_decide (global_idx t >= volume)); [done|].
  unfold trilu_element.
  split; f_equal;
    destruct L1, L2; repeat (destruct (lower_cond _ _ _) || destruct (upper_cond _ _ _)); done.
Qed.


(** X7: where the sums are representable, what the lower extraction keeps
    with offset [k] it keeps with every larger offset, what the upper
    extraction keeps with offset [k'] it keeps with every smaller offset,
    and the points that both keep with the same offset [k] are those of the
    diagonal [p[DIM-1] - p[DIM-2] = k]. *)
Theorem trilu_nested_and_diagonal (DIM : nat) (k k' : Z) (p : Point) :
  in_coord_t (coord p (DIM - 2) + k) → in_coord_t (coord p (DIM - 2) + k') → k <= k' →
  (lower_cond DIM k p = true → lower_cond DIM k' p = true)
  ∧ (upper_cond DIM k' p = true → upper_cond DIM k p = true)
  ∧ (lower_cond DIM k p && upper_cond DIM k p = true
     ↔ coord p (DIM - 1) - coord p (DIM - 2) = k).
Proof.
  intros Hk Hk' Hle.
  rewrite !(lower_cond_exact DIM k p Hk), !(lower_cond_exact DIM k' p Hk'),
    !(upper_cond_exact DIM k p Hk), !(upper_cond_exact DIM k' p Hk').
  rewrite andb_true_iff, !bool_decide_eq_true. lia.
Qed.

Lemma trilu_nested_and_diagonal_witness :
  (lower_cond 2 0 [3; 3] = true → lower_cond 2 1 [3; 3] = true)
  ∧ (upper_cond 2 1 [3; 3] = true → upper_cond 2 0 [3; 3] = true)
  ∧ (lower_cond 2 0 [3; 3] && upper_cond 2 0 [3; 3] = true
     ↔ coord [3; 3] (2 - 1) - coord [3; 3] (2 - 2) = 0).
Proof.
  apply (trilu_nested_and_diagonal 2 0 1 [3; 3]);
    unfold in_coord_t, coord; simpl nth; lia.
Defined.

(** X14: checks in sequence.  While the statuses are the success codes of
    their libraries, the CHECK_* macros print nothing and the next one
    runs; at the first status that is not, the process prints the one
    diagnostic of that check and exits with that status, and the checks
    after it do not run. *)
Theorem checks_stop_at_first_failure (sdk : VendorSDK)
    (passed rest : list (StatusLibrary * Z * string * Z))
    (l : StatusLibrary) (status : Z) (file : string) (line : Z) :
  let run := foldr (λ c k, CHECK_macro sdk c.1.1.1 c.1.1.2 c.1.2 c.2 ;;; k) (host_ret tt) in
  Forall (λ c, c.1.1.2 = success_code sdk c.1.1.1) passed →
  run passed = host_ret tt
  ∧ (status ≠ success_code sdk l →
     ∃ format args,
       run (passed ++ (l, status, file, line) :: rest)
       = ([fprintf_stderr format args], Exited status)
       ∧ check_helper sdk l status file line = ([fprintf_stderr format args], Exited status)).
Proof.
  intros run Hok.
  assert (∀ tail, run (passed ++ tail) = run tail) as Hskip.
  { intros tail. induction Hok as [|[[[l0 st0] f0] ln0] passed Hc _ IH]; [done|].
    simpl in *. rewrite IH.
    destruct (check_helper_cases sdk l0 st0 f0 ln0) as [[_ Hr]|[Hne _]]; [|done].
    replace (CHECK_macro sdk l0 st0 f0 ln0) with (check_helper sdk l0 st0 f0 ln0)
      by (by destruct l0).
    rewrite Hr. apply (host_bind_ret tt (λ _, run tail)). }
  split.
  - rewrite <-(app_nil_r passed). apply Hskip.
  - intros Hne. rewrite Hskip.
    destruct (check_helper_cases sdk l status file line) as [[Heq _]|[_ (format & args & Hr)]];
      [done|].
    exists format, args. split; [|done]. simpl.
    replace (CHECK_macro sdk l status file line) with (check_helper sdk l status file line)
      by (by destruct l).
    by rewrite Hr.
Qed.


Lemma promote_in_range t x : in_range t x → in_range (promote t) x.
Proof. destruct t as [[] []]; unfold in_range, promote; simpl; lia. Qed.



(* ===================================================================== *)
(** * Properties: the warp and block reductions                           *)
(* ===================================================================== *)

(** The loop runs five rounds, with the masks 16, 8, 4, 2, 1, and then
    stops because [i] has become 0: more fuel changes nothing. *)
Lemma warp_loop_rounds {T : Type} (f : T → T → T) (fuel : nat) (value : Z → T) :
  (6 ≤ fuel)%nat →
  warp_loop f fuel 16 value
  = foldl (λ v i, λ t, f (v t) (v (Z.lxor t i))) value [16; 8; 4; 2; 1].
Proof.
  intros H. do 6 (destruct fuel as [|fuel]; [lia|]). reflexivity.
Qed.

(** The lanes of the warp of thread [t], as reached by the five masks. *)
Lemma xor_span_warp t :
  0 <= t < 128 →
  Z.lxor t <$> 0 :: xor_span [16; 8; 4; 2; 1] ≡ₚ seqZ (32 * (t / 32)) 32.
Proof.
  intros Ht.
  assert (Forall (λ t, NoDup (Z.lxor t <$> 0 :: xor_span [16; 8; 4; 2; 1])
                       ∧ Forall (λ x, 32 * (t / 32) <= x < 32 * (t / 32) + 32)
                                (Z.lxor t <$> 0 :: xor_span [16; 8; 4; 2; 1]))
                 (seqZ 0 128)) as Hall.
  { apply (bool_decide_unpack _). vm_compute. reflexivity. }
  rewrite Forall_forall in Hall.
  destruct (Hall t) as [Hnd Hin]; [apply elem_of_seqZ; lia|].
  apply submseteq_length_Permutation.
  - apply NoDup_submseteq; [done|]. intros x Hx.
    rewrite Forall_forall in Hin. apply elem_of_seqZ. by apply Hin.
  - rewrite length_seqZ, length_fmap. vm_compute. lia.
Qed.

Section FoldFacts.
Context {T : Type} (f : T → T → T).
Context (f_assoc : ∀ a b c, f (f a b) c = f a (f b c)).

Lemma foldl_f_cons a y l : f a (foldl f y l) = foldl f (f a y) l.
Proof.
  revert y. induction l as [|z l IH]; intros y; simpl; [done|].
  by rewrite IH, f_assoc.
Qed.

Lemma foldl_f_app x l y l' : f (foldl f x l) (foldl f y l') = foldl f x (l ++ y :: l').
Proof. rewrite foldl_app. simpl. apply foldl_f_cons. Qed.

Context (f_comm : ∀ a b, f a b = f b a).

Lemma foldl_f_perm a l1 l2 : l1 ≡ₚ l2 → foldl f a l1 = foldl f a l2.
Proof.
  intros H. revert a. induction H as [|x l1 l2 _ IH|x y l|l1 l2 l3 _ IH1 _ IH2];
    intros a; simpl.
  - done.
  - apply IH.
  - f_equal. rewrite !f_assoc. f_equal. apply f_comm.
  - by rewrite IH1.
Qed.

(** The fold of a non-empty list does not depend on the order, the first
    element included. *)
Lemma foldl_f_perm1 x l y l' : x :: l ≡ₚ y :: l' → foldl f x l = foldl f y l'.
Proof.
  assert (∀ l1 l2 : list T, l1 ≡ₚ l2 →
            match l1 with [] => None | a :: k => Some (foldl f a k) end
            = match l2 with [] => None | a :: k => Some (foldl f a k) end) as H.
  { induction 1 as [|a l1 l2 Hp _|a b k|l1 l2 l3 _ IH1 _ IH2].
    - done.
    - f_equal. by apply foldl_f_perm.
    - simpl. by rewrite (f_comm b a).
    - by rewrite IH1. }
  intros Hp. specialize (H _ _ Hp). by injection H.
Qed.
End FoldFacts.

Section Butterfly.
Context {T : Type} (f : T → T → T).
Context (f_assoc : ∀ a b c, f (f a b) c = f a (f b c)).

(** After the rounds with the masks [masks], thread [t] holds the fold of
    its own value and of the values of the threads [t xor m], [m] in
    [xor_span masks]. *)
Lemma butterfly_rounds (masks : list Z) (value : Z → T) (t : Z) :
  foldl (λ v i, λ t, f (v t) (v (Z.lxor t i))) value masks t
  = foldl f (value t) ((λ m, value (Z.lxor t m)) <$> xor_span masks).
Proof.
  revert t. induction masks as [|i masks IH] using rev_ind; intros t; [done|].
  unfold xor_span. rewrite !foldl_app. simpl. fold (xor_span masks).
  rewrite !IH, foldl_f_app by done.
  f_equal. rewrite fmap_app, fmap_cons. do 2 f_equal.
  rewrite <-list_fmap_compose. apply list_fmap_ext. intros _ m _. simpl.
  by rewrite Z.lxor_assoc.
Qed.
End Butterfly.

(** X9: for an associative and commutative [fold], after the warp loop
    every thread of a block of up to 128 threads holds the fold of the 32
    values of its warp, taken in lane order; all the lanes of a warp hold
    the same value.  The loop needs six units of fuel (five rounds and the
    test that ends it) and more fuel changes nothing. *)
Theorem warp_loop_total {T : Type} (f : T → T → T) (fuel : nat) (value : Z → T) (t : Z) :
  (∀ a b c, f (f a b) c = f a (f b c)) → (∀ a b, f a b = f b a) →
  (6 ≤ fuel)%nat → 0 <= t < 128 →
  warp_loop f fuel 16 value t
  = foldl f (value (32 * (t / 32))) (value <$> seqZ (32 * (t / 32) + 1) 31).
Proof.
  intros Hassoc Hcomm Hfuel Ht.
  rewrite warp_loop_rounds, butterfly_rounds by done.
  replace (value t) with (value (Z.lxor t 0)) by (by rewrite Z.lxor_0_r).
  apply foldl_f_perm1; [done..|].
  change (value (Z.lxor t 0) :: ((λ m, value (Z.lxor t m)) <$> xor_span [16; 8; 4; 2; 1]))
    with ((λ m, value (Z.lxor t m)) <$> 0 :: xor_span [16; 8; 4; 2; 1]).
  rewrite (list_fmap_compose (Z.lxor t) value).
  rewrite (xor_span_warp t Ht).
  rewrite (seqZ_cons (32 * (t / 32)) 32) by lia.
  rewrite fmap_cons. do 2 f_equal; lia.
Qed.


Lemma write_trampoline_128 {T : Type} (value : Z → T) :
  write_trampoline 128 value !! 1 = Some (value 32)
  ∧ write_trampoline 128 value !! 2 = Some (value 64)
  ∧ write_trampoline 128 value !! 3 = Some (value 96).
Proof. split_and!. all: vm_compute. all: reflexivity. Qed.

(** X10: for an associative and commutative [fold], in a block of 128
    threads the value that thread 0 reduces into [result] is the fold of
    the values of all 128 threads, in thread order. *)
Theorem reduce_output_total {T : Type} (f : T → T → T) (value : Z → T) :
  (∀ a b c, f (f a b) c = f a (f b c)) → (∀ a b, f a b = f b a) →
  reduce_output f 128 value = Some (foldl f (value 0) (value <$> seqZ 1 127)).
Proof.
  intros Hassoc Hcomm. unfold reduce_output, fold_trampoline.
  assert (∀ t, 0 <= t < 128 →
            warp_loop f (S (Z.to_nat 16)) 16 value t
            = foldl f (value (32 * (t / 32))) (value <$> seqZ (32 * (t / 32) + 1) 31)) as Hw.
  { intros t Ht. apply warp_loop_total; [done..|simpl; lia|done]. }
  generalize dependent (warp_loop f (S (Z.to_nat 16)) 16 value). intros v Hw.
  change (seqZ 1 (THREADS_PER_BLOCK / 32 - 1)) with [1; 2; 3].
  cbn [foldl].
  destruct (write_trampoline_128 v) as (-> & -> & ->).
  cbn [mbind option_bind]. f_equal.
  rewrite !Hw by lia.
  change (32 * (0 / 32)) with 0. change (32 * (32 / 32)) with 32.
  change (32 * (64 / 32)) with 64. change (32 * (96 / 32)) with 96.
  rewrite !foldl_f_app by done. rewrite <-!fmap_cons, <-!fmap_app.
  do 2 f_equal.
Qed.

(** The warp loop of [reduce_bool]: after the rounds with the masks
    [masks], thread [t] holds 0 if one of the threads [t xor m], [m] being 0
    or in [xor_span masks], passed 0, and its own value otherwise. *)
Lemma bool_rounds (masks : list Z) (value : Z → Z) (t : Z) :
  foldl (λ v i, λ t, reduce_bool_step (v t) (v (Z.lxor t i))) value masks t
  = if bool_decide (Exists (λ m, value (Z.lxor t m) = 0) (0 :: xor_span masks))
    then 0 else value t.
Proof.
  revert t. induction masks as [|i masks IH] using rev_ind; intros t.
  - simpl. unfold xor_span. simpl.
    case_bool_decide as H; [|done].
    apply Exists_exists in H as (m & Hm & Hz).
    apply list_elem_of_singleton in Hm as ->. by rewrite Z.lxor_0_r in Hz.
  - unfold xor_span. rewrite !foldl_app. simpl. fold (xor_span masks).
    rewrite !IH. unfold reduce_bool_step.
    assert (Exists (λ m, value (Z.lxor t m) = 0)
                   (0 :: xor_span masks ++ i :: (Z.lxor i <$> xor_span masks))
            ↔ Exists (λ m, value (Z.lxor t m) = 0) (0 :: xor_span masks)
              ∨ Exists (λ m, value (Z.lxor (Z.lxor t i) m) = 0) (0 :: xor_span masks)) as Hsplit.
    { rewrite !Exists_exists. split.
      - intros (m & Hm & Hz).
        apply elem_of_cons in Hm as [->|Hm]; [left; exists 0; split; [left|done]|].
        apply elem_of_app in Hm as [Hm|Hm]; [left; exists m; split; [by right|done]|].
        apply elem_of_cons in Hm as [->|Hm].
        + right. exists 0. split; [left|]. by rewrite Z.lxor_0_r.
        + apply list_elem_of_fmap in Hm as (m' & -> & Hm').
          right. exists m'. split; [by right|]. by rewrite Z.lxor_assoc.
      - intros [(m & Hm & Hz) | (m & Hm & Hz)].
        + exists m. split; [|done].
          apply elem_of_cons in Hm as [->|Hm]; [left|right; apply elem_of_app; by left].
        + exists (Z.lxor i m). split; [|by rewrite <-Z.lxor_assoc].
          right. apply elem_of_app. right.
          apply elem_of_cons in Hm as [->|Hm].
          * rewrite Z.lxor_0_r. left.
          * right. apply list_elem_of_fmap. by exists m. }
    assert (Exists (λ m, value (Z.lxor (Z.lxor t i) m) = 0) (0 :: xor_span masks)
            ∨ value (Z.lxor t i) ≠ 0) as Hpartner.
    { destruct (decide (value (Z.lxor t i) = 0)) as [Hz|Hz]; [left|by right].
      apply Exists_cons_hd. by rewrite Z.lxor_0_r. }
    repeat case_bool_decide; try done; tauto.
Qed.

(** After the warp loop of [reduce_bool] a thread holds 0 exactly when a
    thread of its warp passed 0; otherwise it still holds its own value. *)
Lemma bool_warp_loop (fuel : nat) (value : Z → Z) (t : Z) :
  (6 ≤ fuel)%nat → 0 <= t < 128 →
  warp_loop reduce_bool_step fuel 16 value t
  = if bool_decide (Exists (λ x, value x = 0) (seqZ (32 * (t / 32)) 32))
    then 0 else value t.
Proof.
  intros Hfuel Ht. rewrite warp_loop_rounds, bool_rounds by done.
  apply (f_equal (λ b : bool, if b then 0 else value t)).
  apply bool_decide_ext.
  rewrite <-(xor_span_warp t Ht), Exists_fmap. done.
Qed.

Lemma seqZ_warps : seqZ 0 128 = seqZ 0 32 ++ seqZ 32 32 ++ seqZ 64 32 ++ seqZ 96 32.
Proof. reflexivity. Qed.

(** X11: in a block of 128 threads [reduce_bool] stores [false] into
    [result] if some thread of the block passed 0, and leaves [result] as
    it was otherwise; it never stores [true]. *)
Theorem reduce_bool_any_zero (result : bool) (value : Z → Z) :
  reduce_bool 128 result value
  = Some (if bool_decide (Exists (λ t, value t = 0) (seqZ 0 128)) then false else result).
Proof.
  unfold reduce_bool.
  assert (∀ t, 0 <= t < 128 →
            warp_loop reduce_bool_step (S (Z.to_nat 16)) 16 value t
            = if bool_decide (Exists (λ x, value x = 0) (seqZ (32 * (t / 32)) 32))
              then 0 else value t) as Hw.
  { intros t Ht. apply bool_warp_loop; [simpl; lia|done]. }
  generalize dependent (warp_loop reduce_bool_step (S (Z.to_nat 16)) 16 value). intros v Hw.
  change (seqZ 1 (THREADS_PER_BLOCK / 32 - 1)) with [1; 2; 3].
  cbn [scan_trampoline].
  destruct (write_trampoline_128 v) as (-> & -> & ->).
  rewrite !Hw by lia.
  change (32 * (0 / 32)) with 0. change (32 * (32 / 32)) with 32.
  change (32 * (64 / 32)) with 64. change (32 * (96 / 32)) with 96.
  assert (Exists (λ t, value t = 0) (seqZ 0 128)
          ↔ Exists (λ x, value x = 0) (seqZ 0 32) ∨ Exists (λ x, value x = 0) (seqZ 32 32)
            ∨ Exists (λ x, value x = 0) (seqZ 64 32) ∨ Exists (λ x, value x = 0) (seqZ 96 32))
    as Hall by (by rewrite seqZ_warps, !Exists_app).
  assert (∀ base, ¬ Exists (λ x, value x = 0) (seqZ base 32) → value base ≠ 0) as Hnz.
  { intros base Hn Hz. apply Hn. apply Exists_exists. exists base.
    split; [apply elem_of_seqZ; lia|done]. }
  repeat case_bool_decide; cbn [mbind option_bind]; try done; try tauto;
    repeat case_bool_decide; try done; try tauto;
    exfalso;
    match goal with
    | Hz : value ?b = 0, Hn : ¬ Exists _ (seqZ ?b 32) |- _ => by apply (Hnz b Hn)
    end.
Qed.

Lemma write_trampoline_partial {T : Type} (value : Z → T) :
  write_trampoline 32 value !! 1 = None
  ∧ write_trampoline 64 value !! 1 = Some (value 32)
  ∧ write_trampoline 64 value !! 2 = None
  ∧ write_trampoline 96 value !! 1 = Some (value 32)
  ∧ write_trampoline 96 value !! 2 = Some (value 64)
  ∧ write_trampoline 96 value !! 3 = None.
Proof. split_and!. all: vm_compute. all: reflexivity. Qed.

(** X12: the reductions need a block of [THREADS_PER_BLOCK] threads.  In
    a block of one, two or three warps thread 0 of [reduce_output] folds a
    slot of [trampoline] that no thread has written; so does thread 0 of
    [reduce_bool] when no thread of the block passed 0. *)
Theorem reductions_need_full_block {T : Type} (f : T → T → T)
    (blockDim_x : Z) (value : Z → T) (result : bool) (flag : Z → Z) :
  blockDim_x ∈ [32; 64; 96] →
  reduce_output f blockDim_x value = None
  ∧ ((∀ t, 0 <= t < blockDim_x → flag t ≠ 0) →
     reduce_bool blockDim_x result flag = None).
Proof.
  intros Hb. split.
  - unfold reduce_output, fold_trampoline.
    generalize (warp_loop f (S (Z.to_nat 16)) 16 value). intros v.
    change (seqZ 1 (THREADS_PER_BLOCK / 32 - 1)) with [1; 2; 3]. cbn [foldl].
    destruct (write_trampoline_partial v) as (H32 & H64 & H64' & H96 & H96' & H96'').
    repeat (apply elem_of_cons in Hb as [->|Hb]);
      [rewrite H32|rewrite H64, H64'|rewrite H96, H96', H96''|by apply not_elem_of_nil in Hb];
      done.
  - intros Hnz. unfold reduce_bool.
    assert (∀ t, 0 <= t < blockDim_x →
              warp_loop reduce_bool_step (S (Z.to_nat 16)) 16 flag t ≠ 0) as Hw.
    { intros t Ht.
      assert (0 <= t < 128) as Ht'
        by (repeat (apply elem_of_cons in Hb as [->|Hb]); [lia..|by apply not_elem_of_nil in Hb]).
      rewrite bool_warp_loop by (done || (simpl; lia)).
      rewrite bool_decide_eq_false_2; [by apply Hnz|].
      intros (x & Hx%elem_of_seqZ & Hz)%Exists_exists.
      apply (Hnz x); [|done].
      assert (0 <= t / 32) by (apply Z.div_pos; lia).
      repeat (apply elem_of_cons in Hb as [->|Hb]);
        [assert (t / 32 < 1) by (apply Z.div_lt_upper_bound; lia); lia
        |assert (t / 32 < 2) by (apply Z.div_lt_upper_bound; lia); lia
        |assert (t / 32 < 3) by (apply Z.div_lt_upper_bound; lia); lia
        |by apply not_elem_of_nil in Hb]. }
    generalize dependent (warp_loop reduce_bool_step (S (Z.to_nat 16)) 16 flag). intros v Hw.
    change (seqZ 1 (THREADS_PER_BLOCK / 32 - 1)) with [1; 2; 3]. cbn [scan_trampoline].
    destruct (write_trampoline_partial v) as (H32 & H64 & H64' & H96 & H96' & H96'').
    repeat (apply elem_of_cons in Hb as [->|Hb]).
    + by rewrite H32.
    + rewrite H64, H64'. rewrite bool_decide_eq_false_2 by (apply Hw; lia). done.
    + rewrite H96, H96', H96''.
      rewrite !bool_decide_eq_false_2 by (apply Hw; lia). done.
    + by apply not_elem_of_nil in Hb.
Qed.

(* ===================================================================== *)
(** * Properties: shuffle                                                 *)
(* ===================================================================== *)

Lemma bytes_of_int_of_bytes b0 b1 b2 b3 :
  bytes_of_int (int_of_bytes [b0; b1; b2; b3]) = [b0; b1; b2; b3].
Proof.
  unfold bytes_of_int, int_of_bytes, sizeof_int.
  rewrite LittleEndianList.le_split_mod.
  replace (wrap_signed 32 (LittleEndianList.le_combine [b0; b1; b2; b3]) mod 2 ^ (Z.of_nat 4 * 8))
    with (LittleEndianList.le_combine [b0; b1; b2; b3] mod 2 ^ (Z.of_nat 4 * 8)).
  - rewrite <-LittleEndianList.le_split_mod.
    apply (LittleEndianList.split_le_combine [b0; b1; b2; b3]).
  - unfold wrap_signed. change (Z.of_nat 4 * 8) with 32.
    change (2 ^ (32 - 1)) with (2 ^ 31).
    rewrite Zminus_mod_idemp_l. f_equal. lia.
Qed.

Lemma ints_of_bytes_round_trip (n : nat) (bs : list Byte.byte) :
  length bs = (4 * n)%nat →
  bytes_of_ints (ints_of_bytes bs) = bs ∧ length (ints_of_bytes bs) = n.
Proof.
  revert bs. induction n as [|n IH]; intros bs Hlen.
  - destruct bs; [done|simpl in Hlen; lia].
  - destruct bs as [|b0 [|b1 [|b2 [|b3 bs]]]]; simpl in Hlen; try lia.
    destruct (IH bs) as [Hb Hl]; [lia|].
    cbn [ints_of_bytes]. unfold bytes_of_ints in *. rewrite bind_cons.
    rewrite bytes_of_int_of_bytes, Hb. cbn [length]. by rewrite Hl.
Qed.

(** X13: [shuffle] returns the [var] of the source lane, byte for byte,
    whatever [sizeof(T)] is: the bytes of the [int] array beyond
    [sizeof(T)], which are not initialised, do not reach the result. *)
Theorem shuffle_exact {T : Type} (sizeof_T : nat)
    (to_bytes : T → list Byte.byte) (of_bytes : list Byte.byte → T)
    (uninit : Z → list Byte.byte) (var : Z → T) (threadIdx_x laneMask : Z) :
  (∀ x, length (to_bytes x) = sizeof_T) →
  (∀ x, of_bytes (to_bytes x) = x) →
  (∀ t, length (uninit t) = (4 * ((sizeof_T + sizeof_int - 1) / sizeof_int))%nat) →
  shuffle sizeof_T to_bytes of_bytes uninit var threadIdx_x laneMask
  = var (Z.lxor threadIdx_x laneMask).
Proof.
  intros Hsize Hrepr Huninit. unfold shuffle, shfl_xor_sync.
  set (n := ((sizeof_T + sizeof_int - 1) / sizeof_int)%nat) in *.
  assert (sizeof_T ≤ 4 * n)%nat as Hn.
  { unfold n, sizeof_int.
    pose proof (Nat.div_mod_eq (sizeof_T + 4 - 1) 4).
    pose proof (Nat.mod_upper_bound (sizeof_T + 4 - 1) 4). lia. }
  assert (∀ t, length (to_bytes (var t) ++ drop sizeof_T (uninit t)) = (4 * n)%nat) as Hlen.
  { intros t. rewrite length_app, length_drop, Hsize, Huninit. lia. }
  assert (imap (λ j _, ints_of_bytes (to_bytes (var (Z.lxor threadIdx_x laneMask))
                                       ++ drop sizeof_T (uninit (Z.lxor threadIdx_x laneMask))) !!! j)
               (ints_of_bytes (to_bytes (var threadIdx_x) ++ drop sizeof_T (uninit threadIdx_x)))
          = ints_of_bytes (to_bytes (var (Z.lxor threadIdx_x laneMask))
                           ++ drop sizeof_T (uninit (Z.lxor threadIdx_x laneMask)))) as ->.
  { apply list_eq. intros j.
    destruct (ints_of_bytes_round_trip n _ (Hlen threadIdx_x)) as [_ Hl1].
    destruct (ints_of_bytes_round_trip n _ (Hlen (Z.lxor threadIdx_x laneMask))) as [_ Hl2].
    rewrite list_lookup_imap.
    destruct (decide (j < n)%nat) as [Hj|Hj].
    - destruct (lookup_lt_is_Some_2 _ j ltac:(rewrite Hl1; exact Hj)) as [x ->].
      destruct (lookup_lt_is_Some_2 _ j ltac:(rewrite Hl2; exact Hj)) as [y Hy].
      simpl. rewrite Hy. f_equal. by apply list_lookup_total_correct.
    - rewrite !lookup_ge_None_2 by lia. done. }
  destruct (ints_of_bytes_round_trip n _ (Hlen (Z.lxor threadIdx_x laneMask))) as [-> _].
  rewrite take_app_length' by (by rewrite Hsize). apply Hrepr.
Qed.

(* ===================================================================== *)
(** * Properties: reduce_output for complex values                        *)
(* ===================================================================== *)

Section ComplexFacts.
Context {T : Type} (sizeof_T : nat).
Context (to_bytes : T → list Byte.byte) (of_bytes : list Byte.byte → T).
Context (f : T → T → T).
Context (Hsize : ∀ x, length (to_bytes x) = sizeof_T).
Context (Hrepr : ∀ x, of_bytes (to_bytes x) = x).

Lemma warp_loop_complex_generic (uninit : Z → Z → list Byte.byte)
    (fuel : nat) (i : Z) (value value' : Z → T) :
  (∀ j t, length (uninit j t) = (4 * ((sizeof_T + sizeof_int - 1) / sizeof_int))%nat) →
  (∀ t, value t = value' t) →
  ∀ t, warp_loop_complex sizeof_T to_bytes of_bytes f uninit fuel i value t
       = warp_loop f fuel i value' t.
Proof.
  intros Hun. revert i value value'.
  induction fuel as [|fuel IH]; intros i value value' Hv t; simpl; [done|].
  destruct (bool_decide (i >= 1)); [|done].
  apply IH. intros t'. rewrite shuffle_exact by done.
  unfold shfl_xor_sync. by rewrite !Hv.
Qed.

Lemma write_trampoline_ext (blockDim_x : Z) (value value' : Z → T) :
  (∀ t, value t = value' t) →
  write_trampoline blockDim_x value = write_trampoline blockDim_x value'.
Proof.
  intros Hv. unfold write_trampoline. apply foldl_ext_all.
  intros trampoline t. by rewrite Hv.
Qed.
End ComplexFacts.

(** X16: the overload of [reduce_output] for complex values, which moves
    the values between lanes through [shuffle], reduces into [result] the
    same value as the overload for any [T], whatever the arrays of
    [shuffle] hold before they are filled. *)
Theorem reduce_output_complex_generic {T : Type} (sizeof_T : nat)
    (to_bytes : T → list Byte.byte) (of_bytes : list Byte.byte → T)
    (f : T → T → T) (uninit : Z → Z → list Byte.byte)
    (blockDim_x : Z) (value : Z → T) :
  (∀ x, length (to_bytes x) = sizeof_T) →
  (∀ x, of_bytes (to_bytes x) = x) →
  (∀ j t, length (uninit j t) = (4 * ((sizeof_T + sizeof_int - 1) / sizeof_int))%nat) →
  reduce_output_complex sizeof_T to_bytes of_bytes f uninit blockDim_x value
  = reduce_output f blockDim_x value.
Proof.
  intros Hsize Hrepr Hun. unfold reduce_output_complex, reduce_output.
  rewrite (write_trampoline_ext blockDim_x _ (warp_loop f (S (Z.to_nat 16)) 16 value))
    by (by apply warp_loop_complex_generic).
  by rewrite (warp_loop_complex_generic sizeof_T to_bytes of_bytes f Hsize Hrepr uninit
                _ _ value value Hun) by done.
Qed.

(* ===================================================================== *)
(** * Instances                                                           *)
(* ===================================================================== *)

Lemma trilu_launch_written_witness :
  trilu_launch 0 2 true ∅ (λ _, 7) (c_order_pitches [3]) [0; 0] 6 0
    [mkThread 0 128 4; mkThread 0 128 1]
    !! unflatten (c_order_pitches [3]) (global_idx (mkThread 0 128 4)) [0; 0]
  = Some (trilu_element 0 2 true (λ _, 7) 0
            (unflatten (c_order_pitches [3]) (global_idx (mkThread 0 128 4)) [0; 0])).
Proof.
  apply (trilu_launch_written 0 2 true ∅ (λ _, 7) (c_order_pitches [3]) [0; 0] 6 0
           [mkThread 0 128 4; mkThread 0 128 1] (mkThread 0 128 4)).
  - apply list_elem_of_here.
  - vm_compute. reflexivity.
Defined.

Lemma trilu_launch_frame_witness :
  trilu_launch 0 2 true ∅ (λ _, 7) (c_order_pitches [3]) [0; 0] 6 0 [mkThread 0 128 4]
    !! [9; 9]
  = (∅ : gmap Point Z) !! [9; 9].
Proof.
  apply (trilu_launch_frame 0 2 true ∅ (λ _, 7) (c_order_pitches [3]) [0; 0] 6 0
           [mkThread 0 128 4] [9; 9]).
  intros t Ht _. apply list_elem_of_singleton in Ht. subst t.
  vm_compute. discriminate.
Defined.

Lemma trilu_launch_order_irrelevant_witness :
  trilu_launch 0 2 true ∅ (λ _, 7) (c_order_pitches [3]) [0; 0] 6 0
    [mkThread 0 128 4; mkThread 0 128 1]
  = trilu_launch 0 2 true ∅ (λ _, 7) (c_order_pitches [3]) [0; 0] 6 0
      [mkThread 0 128 1; mkThread 0 128 4; mkThread 0 128 4].
Proof.
  apply trilu_launch_order_irrelevant.
  intros t. rewrite !elem_of_cons. tauto.
Defined.

Lemma trilu_launch_again_witness :
  trilu_launch 0 2 true
    (trilu_launch 0 2 true ∅ (λ _, 7) (c_order_pitches [3]) [0; 0] 6 0
       [mkThread 0 128 4; mkThread 0 128 1])
    (λ _, 7) (c_order_pitches [3]) [0; 0] 6 0 [mkThread 0 128 1]
  = trilu_launch 0 2 true ∅ (λ _, 7) (c_order_pitches [3]) [0; 0] 6 0
      [mkThread 0 128 4; mkThread 0 128 1].
Proof.
  apply trilu_launch_again.
  intros t Ht. apply list_elem_of_singleton in Ht. subst t.
  apply list_elem_of_further, list_elem_of_here.
Defined.

Lemma TriluImplBody_GPU_covers_small_witness :
  let blocks := (300 + 127) / 128 in
  let threads := TriluImplBody_GPU 300 ≫= launched_threads in
  TriluImplBody_GPU 300 = [KernelLaunch blocks THREADS_PER_BLOCK]
  ∧ (blocks - 1) * THREADS_PER_BLOCK < 300 <= blocks * THREADS_PER_BLOCK
  ∧ 300 <= Z.of_nat (length threads)
  ∧ NoDup threads
  ∧ ∀ idx, 0 <= idx < 300 →
      ∃ t, t ∈ threads ∧ global_idx t = idx
           ∧ ∀ t', t' ∈ threads → global_idx t' = idx → t' = t.
Proof. apply (TriluImplBody_GPU_covers_small 300). lia. Defined.

Lemma trilu_gpu_refines_sequential_witness :
  trilu_launch 0 2 true ∅ (λ _, 7) (c_order_pitches [3]) [0; 0] 5 0
    (TriluImplBody_GPU 5 ≫= launched_threads)
  = trilu_sequential 0 2 true ∅ (λ _, 7) (c_order_pitches [3]) [0; 0] 5 0.
Proof.
  apply (trilu_gpu_refines_sequential 0 2 true ∅ (λ _, 7) (c_order_pitches [3]) [0; 0] 5 0).
  - lia.
  - reflexivity.
Defined.

Lemma warp_loop_total_witness :
  warp_loop Z.add 6 16 (λ t, t) 40
  = foldl Z.add (32 * (40 / 32)) ((λ t, t) <$> seqZ (32 * (40 / 32) + 1) 31).
Proof.
  apply (warp_loop_total Z.add 6 (λ t, t) 40).
  - intros a b c. lia.
  - intros a b. lia.
  - lia.
  - lia.
Defined.

Lemma reduce_output_total_witness :
  reduce_output Z.add 128 (λ t, t) = Some (foldl Z.add 0 ((λ t, t) <$> seqZ 1 127)).
Proof.
  apply (reduce_output_total Z.add (λ t, t)).
  - intros a b c. lia.
  - intros a b. lia.
Defined.

Lemma reductions_need_full_block_witness :
  reduce_output Z.add 64 (λ t, t) = None
  ∧ ((∀ t, 0 <= t < 64 → t + 1 ≠ 0) → reduce_bool 64 true (λ t, t + 1) = None).
Proof.
  apply (reductions_need_full_block Z.add 64 (λ t, t) true (λ t, t + 1)).
  apply list_elem_of_further, list_elem_of_here.
Defined.

Lemma shuffle_exact_witness :
  shuffle 1 (λ b, [b]) (hd Byte.x00)
    (λ _, [Byte.x01; Byte.x02; Byte.x03; Byte.x04])
    (λ t, if bool_decide (t = 5) then Byte.x61 else Byte.x62) 4 1
  = (λ t, if bool_decide (t = 5) then Byte.x61 else Byte.x62) (Z.lxor 4 1).
Proof.
  refine (shuffle_exact 1 (λ b, [b]) (hd Byte.x00)
            (λ _, [Byte.x01; Byte.x02; Byte.x03; Byte.x04])
            (λ t, if bool_decide (t = 5) then Byte.x61 else Byte.x62) 4 1 _ _ _).
  - intros x. reflexivity.
  - intros x. reflexivity.
  - intros t. reflexivity.
Defined.

Lemma reduce_output_complex_generic_witness :
  reduce_output_complex 1 (λ b, [b]) (hd Byte.x00) (λ a _, a)
    (λ _ _, [Byte.x01; Byte.x02; Byte.x03; Byte.x04]) 128 (λ _, Byte.x61)
  = reduce_output (λ a _, a) 128 (λ _, Byte.x61).
Proof.
  apply (reduce_output_complex_generic 1 (λ b, [b]) (hd Byte.x00) (λ a _, a)
           (λ _ _, [Byte.x01; Byte.x02; Byte.x03; Byte.x04]) 128 (λ _, Byte.x61)).
  - intros x. reflexivity.
  - intros x. reflexivity.
  - intros j t. reflexivity.
Defined.

Lemma checks_stop_at_first_failure_witness :
  let sdk := Build_VendorSDK 0 0 0 0 0 (λ _, "unknown") (λ _, "unknown") (λ _, "unknown") in
  let run := foldr (λ c k, CHECK_macro sdk c.1.1.1 c.1.1.2 c.1.2 c.2 ;;; k) (host_ret tt) in
  run [(CUDA, 0, "a.cu", 10); (CUBLAS, 0, "a.cu", 11)] = host_ret tt
  ∧ (5 ≠ success_code sdk CUFFT →
     ∃ format args,
       run ([(CUDA, 0, "a.cu", 10); (CUBLAS, 0, "a.cu", 11)]
            ++ (CUFFT, 5, "a.cu", 12) :: [(CUDA, 0, "a.cu", 13)])
       = ([fprintf_stderr format args], Exited 5)
       ∧ check_helper sdk CUFFT 5 "a.cu" 12 = ([fprintf_stderr format args], Exited 5)).
Proof.
  intros sdk.
  apply (checks_stop_at_first_failure sdk
           [(CUDA, 0, "a.cu", 10); (CUBLAS, 0, "a.cu", 11)] [(CUDA, 0, "a.cu", 13)]
           CUFFT 5 "a.cu" 12).
  repeat constructor.
Defined.

(* ===================================================================== *)
(** * Properties: the diagnostics, and shuffling twice                    *)
(* ===================================================================== *)



(** X18: shuffling twice with the same lane mask gives every thread its own
    [var] back. *)
Theorem shuffle_twice {T : Type} (sizeof_T : nat)
    (to_bytes : T → list Byte.byte) (of_bytes : list Byte.byte → T)
    (uninit uninit' : Z → list Byte.byte) (var : Z → T) (threadIdx_x laneMask : Z) :
  (∀ x, length (to_bytes x) = sizeof_T) →
  (∀ x, of_bytes (to_bytes x) = x) →
  (∀ t, length (uninit t) = (4 * ((sizeof_T + sizeof_int - 1) / sizeof_int))%nat) →
  (∀ t, length (uninit' t) = (4 * ((sizeof_T + sizeof_int - 1) / sizeof_int))%nat) →
  shuffle sizeof_T to_bytes of_bytes uninit'
    (λ t, shuffle sizeof_T to_bytes of_bytes uninit var t laneMask)
    threadIdx_x laneMask
  = var threadIdx_x.
Proof.
  intros Hsize Hrepr Hun Hun'.
  rewrite !shuffle_exact by done.
  by rewrite Z.lxor_assoc, Z.lxor_nilpotent, Z.lxor_0_r.
Qed.

Lemma shuffle_twice_witness :
  shuffle 1 (λ b, [b]) (hd Byte.x00) (λ _, [Byte.x01; Byte.x02; Byte.x03; Byte.x04])
    (λ t, shuffle 1 (λ b, [b]) (hd Byte.x00) (λ _, [Byte.x05; Byte.x06; Byte.x07; Byte.x08])
            (λ t, if bool_decide (t = 5) then Byte.x61 else Byte.x62) t 1)
    5 1
  = (λ t, if bool_decide (t = 5) then Byte.x61 else Byte.x62) 5.
Proof.
  refine (shuffle_twice 1 (λ b, [b]) (hd Byte.x00)
            (λ _, [Byte.x05; Byte.x06; Byte.x07; Byte.x08])
            (λ _, [Byte.x01; Byte.x02; Byte.x03; Byte.x04])
            (λ t, if bool_decide (t = 5) then Byte.x61 else Byte.x62) 5 1 _ _ _ _).
  - intros x. reflexivity.
  - intros x. reflexivity.
  - intros t. reflexivity.
  - intros t. reflexivity.
Defined.
